(** * A shallow embedding of [src/deobfuscation/deobfuscate.mjs]

    The script parses an obfuscated program, harvests six numeric arrays
    from it, decodes them with a rolling XOR cipher, and then rewrites the
    syntax tree: reads of [a.H.<key>.<field>] become the decoded literals,
    reads of [a.G.<key>] the expressions assigned to them.  This file
    embeds

    - the cipher ([Cipher.xor], source lines 26-40),
    - the syntax-tree helpers and the four Babel traversals (lines 52-214),
    - the order of the script's statements (lines 89-214),

    and proves the properties the specification states about them.  The
    parser, the printer, [JSON.parse] and [atob] belong to the host; the
    traversal is Babel's, modelled as far as the script relies on it. *)

From Stdlib Require Import ZArith Ascii String DecimalString.
From stdpp Require Import gmap strings list fin_maps.

Local Open Scope Z_scope.

(** ** The cipher *)

Module Cipher.

(** A JavaScript string is a sequence of UTF-16 code units.  The cipher only
    ever looks at code units, so strings are lists of integers here; a
    well-formed string has every unit in [0, 65536), a byte string has
    every unit below 256. *)
Definition jsstring := list Z.

Definition code_unit (x : Z) : Prop := 0 <= x < 65536.
Definition byte_unit (x : Z) : Prop := 0 <= x < 256.

(** [String.fromCharCode(x)] keeps the low sixteen bits of [x]. *)
Definition fromCharCode (x : Z) : Z := x mod 65536.

(** [s.charCodeAt(h)]; the loops below only read inside the string. *)
Definition charCodeAt (s : jsstring) (h : nat) : Z := nth h s 0.

(** [d = c.length < 32 ? c.length : 32] *)
Definition key_span (c : jsstring) : nat :=
  if (length c <? 32)%nat then length c else 32%nat.

(** First loop (line 29-30): [e[h] = c.charCodeAt(h) & 31] for [h < d]. *)
Definition key_table (c : jsstring) : list Z :=
  map (fun h => Z.land (charCodeAt c h) 31) (seq 0 (key_span c)).

(** Every entry of the table fits in five bits. *)
Definition key_entries_ok (e : list Z) : Prop := Forall (fun k => 0 <= k < 32) e.

(** Second loop (lines 33-38).  [c] is the rolling index, [m] the string
    built so far.  Reading [e[c]] outside the table gives [undefined],
    which [^] treats as 0. *)

(** Line 35: the unit appended to [m] for the input unit [l]. *)
Definition xor_unit (e : list Z) (c : nat) (l : Z) : Z :=
  if negb (Z.land l 224 =? 0)
  then fromCharCode (Z.lxor l (nth c e 0))
  else fromCharCode l.

(** Lines 36-37: [c++; c = c === d ? 0 : c]. *)
Definition next_index (d c : nat) : nat :=
  let c' := S c in if (c' =? d)%nat then 0%nat else c'.

Fixpoint xor_loop (d : nat) (e : list Z) (b : jsstring) (c : nat) (m : jsstring)
  : nat * jsstring :=
  match b with
  | [] => (c, m)
  | l :: b' => xor_loop d e b' (next_index d c) (m ++ [xor_unit e c l])
  end.

(** [xor(b, c)].  Line 28 calls [c.replace(...)] and drops the result;
    strings are immutable, so the call has no effect. *)
Definition xor (b c : jsstring) : jsstring :=
  match c with
  | [] => b
  | _ => snd (xor_loop (key_span c) (key_table c) b 0 [])
  end.

(** The rolling index after the first [n] units of [b] have been consumed. *)
Definition rolling_index (b c : jsstring) (n : nat) : nat :=
  fst (xor_loop (key_span c) (key_table c) (take n b) 0 []).

End Cipher.


(** ** Values and syntax trees *)

(** JavaScript numbers are IEEE doubles.  The script never computes with
    the numbers it finds; it prints them ([String(n)]), truncates them to a
    code unit ([String.fromCharCode]) and reads the length of an array.
    These three operations are all that is asked of a number type. *)
Class JSNumber (number : Type) := {
  number_to_string : number -> string;
  number_to_uint16 : number -> Z;
  number_of_nat : nat -> number
}.

(** Integers are one such type; the examples use them.  [String(n)] writes
    an integer in full up to 21 digits and in exponent form beyond, and a
    double holds every integer up to 2^53 only: [Z_to_string] is
    [String] on the integers below 2^53 in absolute value, where the
    examples stay. *)
Definition Z_to_string (z : Z) : string :=
  DecimalString.NilZero.string_of_int (Z.to_int z).

#[export] Instance Z_JSNumber : JSNumber Z := {
  number_to_string := Z_to_string;
  number_to_uint16 := fun z => z mod 65536;
  number_of_nat := Z.of_nat
}.

(** Induction over a tree reaches through the lists, options and pairs its
    nodes are nested in. *)
Scheme All for list.
Scheme All for option.
Scheme All for prod.

Module Ast.
Section Definitions.
Context {number : Type} `{!EqDecision number} `{!JSNumber number}.

(** What [JSON.parse] returns.  An object lists its own properties in the
    order [Object.keys] enumerates them. *)
Inductive json :=
| JNull
| JString (s : string)
| JNumber (n : number)
| JBoolean (b : bool)
| JArray (elements : list json)
| JObject (entries : list (string * json)).

(** The Babel nodes the script inspects or builds, with the fields it
    reads.  A function expression's body is always a block; its
    statement list is kept in [body].

    [TargetHolder] stands for the four node types whose first child is an
    assignment target held in a field that admits nothing else:
    [ForInStatement] and [ForOfStatement] with their [left],
    [RestElement] with its [argument], [AssignmentPattern] with its
    [left]; [children] holds the other child nodes.  [OtherNode] stands
    for every other node type.  In both, [kind] holds the type and the
    scalar fields, [children] the child nodes in the order Babel visits
    them. *)
Inductive node :=
| Identifier (name : string)
| StringLiteral (value : string)
| NumericLiteral (value : number)
| BooleanLiteral (value : bool)
| NullLiteral
| MemberExpression (object property : node) (computed : bool)
| OptionalMemberExpression (object property : node) (computed optional : bool)
| AssignmentExpression (operator : string) (left right : node)
| UpdateExpression (operator : string) (prefix : bool) (argument : node)
| UnaryExpression (operator : string) (argument : node)
| CallExpression (callee : node) (arguments : list node)
| ArrayExpression (elements : list (option node))
| ObjectProperty (key value : node) (computed : bool)
| ObjectExpression (properties : list node)
| FunctionExpression (id : option node) (params body : list node)
| ReturnStatement (argument : option node)
| ExpressionStatement (expression : node)
| Program (body : list node)
| OtherNode (kind : string) (children : list node)
| TargetHolder (kind : string) (target : node) (children : list node).

(** *** Reading fields *)

(** [n.object] and [n.property]; [undefined] on a node without the field. *)
Definition field_object (n : node) : option node :=
  match n with
  | MemberExpression o _ _ | OptionalMemberExpression o _ _ _ => Some o
  | _ => None
  end.

Definition field_property (n : node) : option node :=
  match n with
  | MemberExpression _ p _ | OptionalMemberExpression _ p _ _ => Some p
  | _ => None
  end.

(** [t.isIdentifier(x, { name })], where [x] may be [undefined]. *)
Definition isIdentifier (x : option node) (name : string) : bool :=
  match x with
  | Some (Identifier n) => String.eqb n name
  | _ => false
  end.

Definition isMemberExpression (n : node) : bool :=
  match n with MemberExpression _ _ _ => true | _ => false end.

Definition isReturnStatement (n : node) : bool :=
  match n with ReturnStatement _ => true | _ => false end.

(** *** Structural comparison of nodes *)

Fixpoint list_eqb {A : Type} (eqb : A -> A -> bool) (l1 l2 : list A) : bool :=
  match l1, l2 with
  | [], [] => true
  | x :: l1', y :: l2' => eqb x y && list_eqb eqb l1' l2'
  | _, _ => false
  end.

Definition option_eqb {A : Type} (eqb : A -> A -> bool) (o1 o2 : option A) : bool :=
  match o1, o2 with
  | None, None => true
  | Some x, Some y => eqb x y
  | _, _ => false
  end.

Fixpoint node_eqb (a b : node) {struct a} : bool :=
  match a, b with
  | Identifier x, Identifier y => String.eqb x y
  | StringLiteral x, StringLiteral y => String.eqb x y
  | NumericLiteral x, NumericLiteral y => bool_decide (x = y)
  | BooleanLiteral x, BooleanLiteral y => Bool.eqb x y
  | NullLiteral, NullLiteral => true
  | MemberExpression o1 p1 c1, MemberExpression o2 p2 c2 =>
      node_eqb o1 o2 && node_eqb p1 p2 && Bool.eqb c1 c2
  | OptionalMemberExpression o1 p1 c1 q1, OptionalMemberExpression o2 p2 c2 q2 =>
      node_eqb o1 o2 && node_eqb p1 p2 && Bool.eqb c1 c2 && Bool.eqb q1 q2
  | AssignmentExpression op1 l1 r1, AssignmentExpression op2 l2 r2 =>
      String.eqb op1 op2 && node_eqb l1 l2 && node_eqb r1 r2
  | UpdateExpression op1 f1 x1, UpdateExpression op2 f2 x2 =>
      String.eqb op1 op2 && Bool.eqb f1 f2 && node_eqb x1 x2
  | UnaryExpression op1 x1, UnaryExpression op2 x2 =>
      String.eqb op1 op2 && node_eqb x1 x2
  | CallExpression f1 xs1, CallExpression f2 xs2 =>
      node_eqb f1 f2 && list_eqb node_eqb xs1 xs2
  | ArrayExpression xs1, ArrayExpression xs2 =>
      list_eqb (option_eqb node_eqb) xs1 xs2
  | ObjectProperty k1 v1 c1, ObjectProperty k2 v2 c2 =>
      node_eqb k1 k2 && node_eqb v1 v2 && Bool.eqb c1 c2
  | ObjectExpression ps1, ObjectExpression ps2 => list_eqb node_eqb ps1 ps2
  | FunctionExpression i1 ps1 b1, FunctionExpression i2 ps2 b2 =>
      option_eqb node_eqb i1 i2 && list_eqb node_eqb ps1 ps2
      && list_eqb node_eqb b1 b2
  | ReturnStatement x1, ReturnStatement x2 => option_eqb node_eqb x1 x2
  | ExpressionStatement x1, ExpressionStatement x2 => node_eqb x1 x2
  | Program b1, Program b2 => list_eqb node_eqb b1 b2
  | OtherNode k1 cs1, OtherNode k2 cs2 =>
      String.eqb k1 k2 && list_eqb node_eqb cs1 cs2
  | TargetHolder k1 t1 cs1, TargetHolder k2 t2 cs2 =>
      String.eqb k1 k2 && node_eqb t1 t2 && list_eqb node_eqb cs1 cs2
  | _, _ => false
  end.

(** The nesting depth of a tree, the measure the traversal's recursion
    follows. *)
Definition depth_option {A : Type} (f : A -> nat) (o : option A) : nat :=
  match o with Some x => f x | None => 0 end.

Fixpoint depth (n : node) : nat :=
  match n with
  | Identifier _ | StringLiteral _ | NumericLiteral _ | BooleanLiteral _
  | NullLiteral => 1
  | MemberExpression o p _ | OptionalMemberExpression o p _ _ =>
      S (Nat.max (depth o) (depth p))
  | AssignmentExpression _ l r => S (Nat.max (depth l) (depth r))
  | UpdateExpression _ _ x | UnaryExpression _ x | ExpressionStatement x =>
      S (depth x)
  | CallExpression f xs => S (Nat.max (depth f) (list_max (map depth xs)))
  | ArrayExpression xs => S (list_max (map (depth_option depth) xs))
  | ObjectProperty k v _ => S (Nat.max (depth k) (depth v))
  | ObjectExpression ps => S (list_max (map depth ps))
  | FunctionExpression i ps b =>
      S (Nat.max (depth_option depth i)
           (Nat.max (list_max (map depth ps)) (list_max (map depth b))))
  | ReturnStatement x => S (depth_option depth x)
  | Program b => S (list_max (map depth b))
  | OtherNode _ cs => S (list_max (map depth cs))
  | TargetHolder _ t cs => S (Nat.max (depth t) (list_max (map depth cs)))
  end.

(** *** Property lookup on a decoded table *)

(** The prototypes a lookup can fall through to. *)
Inductive prototype := ObjectPrototype | ArrayPrototype.

(** What [table[propName]] can evaluate to: a value of the table, nothing,
    a built-in method, or a prototype object (through [__proto__]). *)
Inductive value :=
| VUndefined
| VJson (j : json)
| VFunction
| VPrototype (p : prototype).

(** The methods of [Object.prototype] and [Array.prototype] (ECMAScript
    2023; engines differ in the newest ones).  All are functions. *)
Definition object_prototype_methods : list string :=
  ["constructor"; "hasOwnProperty"; "isPrototypeOf"; "propertyIsEnumerable";
   "toLocaleString"; "toString"; "valueOf"; "__defineGetter__";
   "__defineSetter__"; "__lookupGetter__"; "__lookupSetter__"]%string.

Definition array_prototype_methods : list string :=
  ["at"; "concat"; "copyWithin"; "entries"; "every"; "fill"; "filter"; "find";
   "findIndex"; "findLast"; "findLastIndex"; "flat"; "flatMap"; "forEach";
   "includes"; "indexOf"; "join"; "keys"; "lastIndexOf"; "map"; "pop"; "push";
   "reduce"; "reduceRight"; "reverse"; "shift"; "slice"; "some"; "sort";
   "splice"; "toReversed"; "toSorted"; "toSpliced"; "unshift"; "values";
   "with"]%string.

Definition mem_string (s : string) (l : list string) : bool :=
  existsb (String.eqb s) l.

(** A property that is not the object's own: a method found on the
    prototype chain, the [__proto__] accessor of [Object.prototype], or
    nothing. *)
Definition inherited (p : prototype) (name : string) : value :=
  let methods :=
    match p with
    | ObjectPrototype => object_prototype_methods
    | ArrayPrototype => array_prototype_methods ++ object_prototype_methods
    end in
  if mem_string name methods then VFunction
  else if String.eqb name "__proto__" then VPrototype p
  else VUndefined.

(** An array index is written in decimal without leading zeros. *)
Definition digit_of_ascii (a : ascii) : option nat :=
  let n := nat_of_ascii a in
  if ((48 <=? n) && (n <=? 57))%nat then Some (n - 48)%nat else None.

Fixpoint parse_digits (s : string) (acc : nat) : option nat :=
  match s with
  | EmptyString => Some acc
  | String a s' =>
      match digit_of_ascii a with
      | Some d => parse_digits s' (10 * acc + d)%nat
      | None => None
      end
  end.

Definition array_index (s : string) : option nat :=
  match s with
  | EmptyString => None
  | String "0"%char EmptyString => Some 0%nat
  | String "0"%char _ => None
  | _ => parse_digits s 0
  end.

(** The own property [name] of an object, first match in the entry list. *)
Fixpoint own_entry (entries : list (string * json)) (name : string) : option json :=
  match entries with
  | [] => None
  | (k, v) :: rest => if String.eqb k name then Some v else own_entry rest name
  end.

(** The own property [name] of an array: an element or [length]. *)
Definition own_element (elements : list json) (name : string) : option json :=
  match array_index name with
  | Some i => elements !! i
  | None =>
      if String.eqb name "length"
      then Some (JNumber (number_of_nat (length elements)))
      else None
  end.

(** The own property [name] of a table, if it has one. *)
Definition own_property (table : json) (name : string) : option json :=
  match table with
  | JObject entries => own_entry entries name
  | JArray elements => own_element elements name
  | _ => None
  end.

(** [table && typeof table === 'object'] (line 153): [null] is falsy;
    strings, numbers and booleans have another [typeof]. *)
Definition is_object_table (table : json) : bool :=
  match table with
  | JObject _ | JArray _ => true
  | _ => false
  end.

(** [table[propName]] for an object or array table (line 154). *)
Definition get_property (table : json) (name : string) : value :=
  match own_property table name with
  | Some v => VJson v
  | None =>
      match table with
      | JArray _ => inherited ArrayPrototype name
      | _ => inherited ObjectPrototype name
      end
  end.

(** The property name an index stands for: [String(i)]. *)
Definition index_name (i : nat) : string :=
  DecimalString.NilZero.string_of_uint (Nat.to_uint i).

(** [decoded.t[i]] (lines 116-120), for a numeric index.  No prototype has
    a property named by an index.  [None] is the [TypeError] of indexing
    [null]. *)
Definition get_index (t : json) (i : nat) : option value :=
  match t with
  | JNull => None
  | JArray elements =>
      Some (match elements !! i with Some v => VJson v | None => VUndefined end)
  | JObject entries =>
      Some (match own_entry entries (index_name i) with
            | Some v => VJson v
            | None => VUndefined
            end)
  | JString s =>
      Some (if (i <? String.length s)%nat
            then VJson (JString (substring i 1 s))
            else VUndefined)
  | JNumber _ | JBoolean _ => Some VUndefined
  end.

(** *** The helpers of lines 52-83 *)

(** [valueToAst] on a value that came out of [JSON.parse]: one of the first
    six cases always applies. *)
Fixpoint jsonToAst (v : json) : node :=
  match v with
  | JNull => NullLiteral
  | JString s => StringLiteral s
  | JNumber n => NumericLiteral n
  | JBoolean b => BooleanLiteral b
  | JArray elements => ArrayExpression (map (fun x => Some (jsonToAst x)) elements)
  | JObject entries =>
      ObjectExpression
        (map (fun kv => match kv with
                        | (k, x) => ObjectProperty (StringLiteral k) (jsonToAst x) false
                        end) entries)
  end.

(** [valueToAst(v)].  [None] is the [undefined] the function returns when it
    falls off its end: for [undefined] and for functions.  A prototype is
    an object without enumerable keys; [Array.prototype] is an array. *)
Definition valueToAst (v : value) : option node :=
  match v with
  | VJson j => Some (jsonToAst j)
  | VPrototype ArrayPrototype => Some (ArrayExpression [])
  | VPrototype ObjectPrototype => Some (ObjectExpression [])
  | VFunction | VUndefined => None
  end.

(** [staticPropName(prop)]; [None] is [null]. *)
Definition staticPropName (prop : node) : option string :=
  match prop with
  | Identifier name => Some name
  | StringLiteral value => Some value
  | NumericLiteral value => Some (number_to_string value)
  | _ => None
  end.

(** A name test such as [if (!k) return]: [null] and the empty string are
    both falsy. *)
Definition truthy_name (k : option string) : option string :=
  match k with
  | Some name => if String.eqb name "" then None else Some name
  | None => None
  end.

(** [extractReturnedNumericArrayFromFunction(fnNode)]; array entries that
    are not numeric literals, holes among them, become [null]. *)
Definition extractReturnedNumericArrayFromFunction (fnNode : node)
  : option (list (option number)) :=
  match fnNode with
  | FunctionExpression _ _ body =>
      match List.find isReturnStatement body with
      | Some (ReturnStatement (Some (ArrayExpression elements))) =>
          Some (map (fun el => match el with
                               | Some (NumericLiteral value) => Some value
                               | _ => None
                               end) elements)
      | _ => None
      end
  | _ => None
  end.

(** *** Babel's traversal *)

(** Where a visited node sits: what the visitors read of [path.parent],
    and what [path.replaceWith] checks of it.  The parser returns a tree,
    so [parent.left === node] holds exactly when the node is the [left]
    child, and an update or unary expression has its argument as only
    child.  [TargetField] is the first child of a [TargetHolder]: a field
    that admits an assignment target and no other expression. *)
Inductive position :=
| AssignmentLeft
| UpdateArgument
| UnaryArgument (operator : string)
| TargetField
| Elsewhere.

(** Lines 132-134 and 206-208: the node is the target of an assignment, of
    [++] or [--], or the operand of [delete]. *)
Definition is_write_target (pos : position) : bool :=
  match pos with
  | AssignmentLeft | UpdateArgument => true
  | UnaryArgument operator => String.eqb operator "delete"
  | TargetField | Elsewhere => false
  end.

(** [replaceWith] validates the replacement against the field of the
    parent that holds the node, and throws a [TypeError] when the field
    does not admit it.  The passes hand over expressions: a literal, or
    the right side of an assignment.  Every field in which the parser puts
    a member expression admits every expression, but for the targets: of
    the expressions the parser builds, a target field admits an identifier
    and a member expression only.  (The left of an assignment and the
    argument of an update are targets too; there the visitors return
    before they replace.) *)
Definition admits (pos : position) (repl : node) : bool :=
  match pos with
  | TargetField =>
      match repl with
      | Identifier _ | MemberExpression _ _ _ => true
      | _ => false
      end
  | _ => true
  end.

Section Traversal.
Context {St : Type}.

(** A visitor sees a node at a position and the pass's state; it may hand a
    replacement to [path.replaceWith] and may update the state. *)
Definition visitor : Type := position -> node -> St -> option node * St.

Definition visit_result : Type := option (node * St).

Fixpoint visit_list (rec : node -> St -> visit_result) (l : list node) (s : St)
  : option (list node * St) :=
  match l with
  | [] => Some ([], s)
  | n :: l' =>
      match rec n s with
      | Some (n', s1) =>
          match visit_list rec l' s1 with
          | Some (l'', s2) => Some (n' :: l'', s2)
          | None => None
          end
      | None => None
      end
  end.

Definition visit_option (rec : node -> St -> visit_result) (o : option node) (s : St)
  : option (option node * St) :=
  match o with
  | None => Some (None, s)
  | Some n =>
      match rec n s with
      | Some (n', s1) => Some (Some n', s1)
      | None => None
      end
  end.

Fixpoint visit_elements (rec : node -> St -> visit_result)
    (l : list (option node)) (s : St) : option (list (option node) * St) :=
  match l with
  | [] => Some ([], s)
  | o :: l' =>
      match visit_option rec o s with
      | Some (o', s1) =>
          match visit_elements rec l' s1 with
          | Some (l'', s2) => Some (o' :: l'', s2)
          | None => None
          end
      | None => None
      end
  end.

(** The children of a node, visited in the order of Babel's visitor keys
    and put back in place. *)
Definition traverse_keys (rec : position -> node -> St -> visit_result)
    (n : node) (s : St) : visit_result :=
  match n with
  | Identifier _ | StringLiteral _ | NumericLiteral _ | BooleanLiteral _
  | NullLiteral => Some (n, s)
  | MemberExpression o p c =>
      '(o', s1) ← rec Elsewhere o s;
      '(p', s2) ← rec Elsewhere p s1;
      Some (MemberExpression o' p' c, s2)
  | OptionalMemberExpression o p c q =>
      '(o', s1) ← rec Elsewhere o s;
      '(p', s2) ← rec Elsewhere p s1;
      Some (OptionalMemberExpression o' p' c q, s2)
  | AssignmentExpression op l r =>
      '(l', s1) ← rec AssignmentLeft l s;
      '(r', s2) ← rec Elsewhere r s1;
      Some (AssignmentExpression op l' r', s2)
  | UpdateExpression op pre x =>
      '(x', s1) ← rec UpdateArgument x s;
      Some (UpdateExpression op pre x', s1)
  | UnaryExpression op x =>
      '(x', s1) ← rec (UnaryArgument op) x s;
      Some (UnaryExpression op x', s1)
  | CallExpression f xs =>
      '(f', s1) ← rec Elsewhere f s;
      '(xs', s2) ← visit_list (rec Elsewhere) xs s1;
      Some (CallExpression f' xs', s2)
  | ArrayExpression xs =>
      '(xs', s1) ← visit_elements (rec Elsewhere) xs s;
      Some (ArrayExpression xs', s1)
  | ObjectProperty k v c =>
      '(k', s1) ← rec Elsewhere k s;
      '(v', s2) ← rec Elsewhere v s1;
      Some (ObjectProperty k' v' c, s2)
  | ObjectExpression ps =>
      '(ps', s1) ← visit_list (rec Elsewhere) ps s;
      Some (ObjectExpression ps', s1)
  | FunctionExpression i ps b =>
      '(i', s1) ← visit_option (rec Elsewhere) i s;
      '(ps', s2) ← visit_list (rec Elsewhere) ps s1;
      '(b', s3) ← visit_list (rec Elsewhere) b s2;
      Some (FunctionExpression i' ps' b', s3)
  | ReturnStatement x =>
      '(x', s1) ← visit_option (rec Elsewhere) x s;
      Some (ReturnStatement x', s1)
  | ExpressionStatement x =>
      '(x', s1) ← rec Elsewhere x s;
      Some (ExpressionStatement x', s1)
  | Program b =>
      '(b', s1) ← visit_list (rec Elsewhere) b s;
      Some (Program b', s1)
  | OtherNode k cs =>
      '(cs', s1) ← visit_list (rec Elsewhere) cs s;
      Some (OtherNode k cs', s1)
  | TargetHolder k t cs =>
      '(t', s1) ← rec TargetField t s;
      '(cs', s2) ← visit_list (rec Elsewhere) cs s1;
      Some (TargetHolder k t' cs', s2)
  end.

Variable enter : visitor.

(** Visiting one node: the visitor runs first.  [path.replaceWith(repl)]
    puts [repl] in the node's place, if the field admits it, and requeues
    it, so the replacement is visited in turn at the same position,
    visitor included.  Otherwise the children are visited.

    [replaceWith] returns at once when [repl] is the very node in place
    ([this.node === replacement]).  A tree has no node identities; the
    test is made on the structure.  When the node in place is another
    object of the same structure, Babel swaps the two and requeues, the
    second visit finds the recorded node itself and stops there: the tree
    that results is the same.

    [None] is a traversal that does not come back with a tree, because
    an exception escapes from it.  That is the [TypeError] of a
    replacement the field does not admit.  It is also the [RangeError] of
    a stack that the nested visits exhaust: the fuel is the nesting the
    stack has room for.  A requeued replacement may be replaced again
    without end (as in [a.G.x = f(a.G.x)], where the recorded expression
    contains a read of its own key); then no fuel is enough. *)
Fixpoint visit (fuel : nat) (pos : position) (n : node) (s : St) : visit_result :=
  match fuel with
  | O => None
  | S fuel' =>
      match enter pos n s with
      | (Some repl, s1) =>
          if node_eqb repl n
          then traverse_keys (visit fuel') n s1
          else if admits pos repl
               then visit fuel' pos repl s1
               else None
      | (None, s1) => traverse_keys (visit fuel') n s1
      end
  end.

(** [traverse.default(ast, { ... })]: the root is not itself visited, its
    children are. *)
Definition traverse (fuel : nat) (ast : node) (s : St) : visit_result :=
  traverse_keys (visit fuel) ast s.

End Traversal.

(** *** Pass 1: the numeric arrays of [a.i.<key> = function () { return [...] }] *)

Definition recognised_keys : list string := ["t"; "z"; "u"; "l"; "I"; "uB"]%string.

(** The objects the passes fill and read: [extracted], [decoded], [gMap]. *)
Definition raw_tables : Type := gmap string (list (option number)).
Definition decoded_tables : Type := gmap string json.
Definition alias_map : Type := gmap string node.

(** [lhs.object.object] and [lhs.object.property], either of which may be
    [undefined].  ([lhs] and [rhs] stand for the source's [left] and
    [right].) *)
Definition root_of (n : node) : option node := field_object n ≫= field_object.
Definition namespace_of (n : node) : option node := field_object n ≫= field_property.

(** Lines 91-107. *)
Definition extract_enter : @visitor raw_tables :=
  fun _ n extracted =>
    match n with
    | AssignmentExpression _ lhs rhs =>
        if negb (isMemberExpression lhs) then (None, extracted)
        else
          (None,
           fold_left
             (fun ex key =>
                if isIdentifier (root_of lhs) "a"
                   && isIdentifier (namespace_of lhs) "i"
                   && isIdentifier (field_property lhs) key
                then match extractReturnedNumericArrayFromFunction rhs with
                     | Some arr => <[key := arr]> ex
                     | None => ex
                     end
                else ex)
             recognised_keys extracted)
    | _ => (None, extracted)
    end.

(** *** Pass 3: [a.H.<key>.<field>] becomes the decoded literal *)

Definition table_keys : list string := ["z"; "u"; "l"; "I"; "uB"]%string.

(** Lines 127-161.  The pass keeps no state of its own. *)
Definition resolve_enter (decoded : decoded_tables) : @visitor unit :=
  fun pos outer s =>
    match outer with
    | MemberExpression inner outer_property _ =>
        if is_write_target pos then (None, s)
        else
          match inner with
          | MemberExpression aH inner_property _ =>
              match aH with
              | MemberExpression aH_object aH_property _ =>
                  if negb (isIdentifier (Some aH_object) "a") then (None, s)
                  else if negb (isIdentifier (Some aH_property) "H") then (None, s)
                  else
                    match truthy_name (staticPropName inner_property) with
                    | Some keyName =>
                        if negb (mem_string keyName table_keys) then (None, s)
                        else
                          match truthy_name (staticPropName outer_property) with
                          | Some propName =>
                              match decoded !! keyName with
                              | Some table =>
                                  if is_object_table table
                                  then (valueToAst (get_property table propName), s)
                                  else (None, s)
                              | None => (None, s)
                              end
                          | None => (None, s)
                          end
                    | None => (None, s)
                    end
              | _ => (None, s)
              end
          | _ => (None, s)
          end
    | _ => (None, s)
    end.

(** *** Pass 4: [a.G.<key>] becomes the expression assigned to it *)

(** Lines 173-181: the key and the expression of an assignment
    [a.G.<key> = <expr>], if the node is one. *)
Definition alias_assignment (n : node) : option (string * node) :=
  match n with
  | AssignmentExpression _ lhs rhs =>
      if negb (isMemberExpression lhs) then None
      else if isIdentifier (root_of lhs) "a"
              && isIdentifier (namespace_of lhs) "G"
      then match truthy_name (field_property lhs ≫= staticPropName) with
           | Some k => Some (k, rhs)
           | None => None
           end
      else None
  | _ => None
  end.

(** Lines 172-185: [gMap.set(k, right)]. *)
Definition collect_enter : @visitor alias_map :=
  fun _ n gMap =>
    match alias_assignment n with
    | Some (k, rhs) => (None, <[k := rhs]> gMap)
    | None => (None, gMap)
    end.

(** Lines 190-213. *)
Definition substitute_enter (gMap : alias_map) : @visitor unit :=
  fun pos n s =>
    match n with
    | MemberExpression _ property _ =>
        if isIdentifier (root_of n) "a" && isIdentifier (namespace_of n) "G"
        then match truthy_name (staticPropName property) with
             | Some k =>
                 match gMap !! k with
                 | Some repl =>
                     if is_write_target pos then (None, s) else (Some repl, s)
                 | None => (None, s)
                 end
             | None => (None, s)
             end
        else (None, s)
    | _ => (None, s)
    end.

(** The two traversals of pass 4, one after the other (lines 168-214).
    [gMap] holds the right-hand nodes themselves, not copies.  The
    substitute traversal rewrites inside a recorded node wherever it meets
    it, the first time in place and to no further effect afterwards; in a
    tree each occurrence is rewritten on its own, to the same result. *)
Definition alias_pass (fuel : nat) (tree : node) : option node :=
  match traverse collect_enter fuel tree ∅ with
  | Some (tree1, gMap) =>
      match traverse (substitute_enter gMap) fuel tree1 tt with
      | Some (tree2, _) => Some tree2
      | None => None
      end
  | None => None
  end.

(** *** The order of a traversal, spelled out *)

(** The nodes a visit of [n] at [pos] reaches when nothing is replaced,
    each with its position, in visiting order: the node, then its
    children's nodes, left to right. *)
Fixpoint preorder (pos : position) (n : node) {struct n} : list (position * node) :=
  (pos, n) ::
  match n with
  | Identifier _ | StringLiteral _ | NumericLiteral _ | BooleanLiteral _
  | NullLiteral => []
  | MemberExpression o p _ | OptionalMemberExpression o p _ _ =>
      preorder Elsewhere o ++ preorder Elsewhere p
  | AssignmentExpression _ l r =>
      preorder AssignmentLeft l ++ preorder Elsewhere r
  | UpdateExpression _ _ x => preorder UpdateArgument x
  | UnaryExpression op x => preorder (UnaryArgument op) x
  | CallExpression f xs =>
      preorder Elsewhere f ++ flat_map (preorder Elsewhere) xs
  | ArrayExpression xs =>
      flat_map (fun o => match o with
                         | Some x => preorder Elsewhere x
                         | None => []
                         end) xs
  | ObjectProperty k v _ => preorder Elsewhere k ++ preorder Elsewhere v
  | ObjectExpression ps => flat_map (preorder Elsewhere) ps
  | FunctionExpression i ps b =>
      match i with Some x => preorder Elsewhere x | None => [] end
      ++ flat_map (preorder Elsewhere) ps ++ flat_map (preorder Elsewhere) b
  | ReturnStatement x =>
      match x with Some y => preorder Elsewhere y | None => [] end
  | ExpressionStatement x => preorder Elsewhere x
  | Program b => flat_map (preorder Elsewhere) b
  | OtherNode _ cs => flat_map (preorder Elsewhere) cs
  | TargetHolder _ t cs => preorder TargetField t ++ flat_map (preorder Elsewhere) cs
  end.

(** The nodes [traverse] visits: all but the root. *)
Definition visited (tree : node) : list (position * node) :=
  tail (preorder Elsewhere tree).

(** The state a visitor that only observes leaves behind after the nodes
    of [l]. *)
Definition observe {St : Type} (enter : @visitor St) (l : list (position * node)) (s : St) : St :=
  fold_left (fun s pn => snd (enter (fst pn) (snd pn) s)) l s.

Section Quiet.
Context {St : Type} (enter : @visitor St).

(** The visitor hands no replacement to [replaceWith] at this node. *)
Definition quiet (pn : position * node) : Prop :=
  forall s, fst (enter (fst pn) (snd pn) s) = None.

(** What a visit answers when nothing is replaced below [n]: the tree
    itself and the state the visitor accumulated, provided the fuel covers
    the depth. *)
Definition quiet_answer (fuel : nat) (pos : position) (n : node) (s : St)
  : visit_result :=
  if (depth n <=? fuel)%nat
  then Some (n, observe enter (preorder pos n) s)
  else None.

End Quiet.

(** The specification's collect pass: every assignment [a.G.<key> = <expr>]
    of the tree in source order, each recorded over what was there. *)
Definition alias_assignments (tree : node) : list (string * node) :=
  omap (fun pn => alias_assignment (snd pn)) (visited tree).

Definition record_all (l : list (string * node)) (gMap : alias_map) : alias_map :=
  fold_left (fun m kv => <[fst kv := snd kv]> m) l gMap.

(** *** Shapes used in the statements *)

(** [a.H.<key>.<field>] and [a.G.<key>], with the nodes that name the key
    and the field; the [computed] flags tell [x.y] from [x[y]]. *)
Definition proxy_access (kp fp : node) (c1 c2 c3 : bool) : node :=
  MemberExpression
    (MemberExpression
       (MemberExpression (Identifier "a") (Identifier "H") c1) kp c2) fp c3.

Definition alias_access (kp : node) (c1 c2 : bool) : node :=
  MemberExpression (MemberExpression (Identifier "a") (Identifier "G") c1) kp c2.

(** A node without children. *)
Definition is_leaf (n : node) : bool :=
  match n with
  | Identifier _ | StringLiteral _ | NumericLiteral _ | BooleanLiteral _
  | NullLiteral => true
  | _ => false
  end.

(** What pass 1 leaves in [extracted]. *)
Definition extracted_of (tree : node) : raw_tables :=
  observe extract_enter (visited tree) ∅.

(** The place of a table in the order of lines 115-120. *)
Definition decode_rank (key : string) : nat :=
  if String.eqb key "t" then 0
  else if String.eqb key "z" then 1
  else if String.eqb key "u" then 2
  else if String.eqb key "l" then 3
  else if String.eqb key "I" then 4
  else 5.

(** *** Pass 1, spelled out *)

(** The key and the array of an assignment
    [a.i.<key> = function () { ... return [...] }], if the node is one:
    the key is an identifier among the six and the function returns an
    array literal (lines 92-104). *)
Definition table_assignment (n : node) : option (string * list (option number)) :=
  match n with
  | AssignmentExpression _ lhs rhs =>
      match lhs with
      | MemberExpression _ (Identifier key) _ =>
          if isIdentifier (root_of lhs) "a"
             && isIdentifier (namespace_of lhs) "i"
             && mem_string key recognised_keys
          then match extractReturnedNumericArrayFromFunction rhs with
               | Some arr => Some (key, arr)
               | None => None
               end
          else None
      | _ => None
      end
  | _ => None
  end.

(** Every such assignment of the tree, in source order. *)
Definition table_assignments (tree : node) : list (string * list (option number)) :=
  omap (fun pn => table_assignment (snd pn)) (visited tree).

Definition store_all (l : list (string * list (option number))) (extracted : raw_tables)
  : raw_tables :=
  fold_left (fun m kv => <[fst kv := snd kv]> m) l extracted.

(** The literal bound of pass 3: no decoded table is deeper, as a literal,
    than this. *)
Definition literal_bound (decoded : decoded_tables) : nat :=
  list_max (map (fun kv => depth (jsonToAst (snd kv))) (map_to_list decoded)).

(** A map after a run of [m.set(key, value)] (or [m[key] = value]). *)
Definition fill {V : Type} (l : list (string * V)) (m : gmap string V) : gmap string V :=
  fold_left (fun m kv => <[fst kv := snd kv]> m) l m.

(** *** The traversals that replace, spelled out *)

(** The child nodes of a node, each with its position, in visiting
    order. *)
Definition children (n : node) : list (position * node) :=
  let elsewhere := map (fun c : node => (Elsewhere, c)) in
  match n with
  | Identifier _ | StringLiteral _ | NumericLiteral _ | BooleanLiteral _
  | NullLiteral => []
  | MemberExpression o p _ | OptionalMemberExpression o p _ _ =>
      [(Elsewhere, o); (Elsewhere, p)]
  | AssignmentExpression _ l r => [(AssignmentLeft, l); (Elsewhere, r)]
  | UpdateExpression _ _ x => [(UpdateArgument, x)]
  | UnaryExpression op x => [(UnaryArgument op, x)]
  | CallExpression f xs => (Elsewhere, f) :: elsewhere xs
  | ArrayExpression xs => elsewhere (omap id xs)
  | ObjectProperty k v _ => [(Elsewhere, k); (Elsewhere, v)]
  | ObjectExpression ps => elsewhere ps
  | FunctionExpression i ps b => elsewhere (option_list i ++ ps ++ b)
  | ReturnStatement x => elsewhere (option_list x)
  | ExpressionStatement x => [(Elsewhere, x)]
  | Program b => elsewhere b
  | OtherNode _ cs => elsewhere cs
  | TargetHolder _ t cs => (TargetField, t) :: elsewhere cs
  end.





(** *** The script, top to bottom *)

Section Script.

(** Three things are taken from the host.  [apply_limit] is the number of
    arguments the engine lets [apply] pass on; it depends on the engine
    and on the size of its stack.  [JSON_parse] returns [None] where
    [JSON.parse] throws; [atob] converts its argument to a string, decodes
    it, and returns [None] where [atob] throws. *)
Variable apply_limit : N.
Variable JSON_parse : Cipher.jsstring -> option json.
Variable atob : value -> option Cipher.jsstring.

(** [String.fromCharCode.apply(null, b)]: no arguments when [b] is
    [undefined]; a [null] entry counts as 0.  [None] is the [RangeError]
    of an array with more entries than [apply] passes on. *)
Definition fromCharCode_apply (b : option (list (option number)))
  : option Cipher.jsstring :=
  match b with
  | None => Some []
  | Some arr =>
      if (N.of_nat (length arr) <=? apply_limit)%N
      then Some (map (fun x => match x with
                               | Some n => number_to_uint16 n
                               | None => 0
                               end) arr)
      else None
  end.

(** [decodeArray(b, c)], lines 42-45.  The arguments of [xor] are evaluated
    from left to right; whichever throws, [decodeArray] throws. *)
Definition decodeArray (b : option (list (option number))) (c : value) : option json :=
  match fromCharCode_apply b with
  | Some units =>
      match atob c with
      | Some key => JSON_parse (Cipher.xor units key)
      | None => None
      end
  | None => None
  end.

(** The variables the script's statements share. *)
Record script_state := {
  ast : node;
  extracted : raw_tables;
  decoded : decoded_tables;
  gMap : alias_map
}.

(** The statement the script is at. *)
Inductive stage :=
| Extracting
| Decoding (key : string)
| Resolving
| Collecting
| Substituting.

(** How a run ends: it reaches the printer, an exception escapes from a
    decode statement, or a traversal does not come back with a tree (see
    [visit]). *)
Inductive outcome :=
| Finished
| Threw (at_stage : stage)
| Unfinished (at_stage : stage).

(** A statement either lets the script go on or ends it; either way it
    leaves a state behind. *)
Definition step : Type := script_state -> option outcome * script_state.

Definition and_then (first next : step) : step :=
  fun st =>
    match first st with
    | (None, st') => next st'
    | (Some o, st') => (Some o, st')
    end.

Notation "a >>> b" := (and_then a b) (at level 62, right associativity).

Definition finish : step := fun st => (Some Finished, st).

(** A traversal that threads [s] and writes the tree back. *)
Definition with_ast (st : script_state) (a : node) : script_state :=
  {| ast := a; extracted := extracted st; decoded := decoded st; gMap := gMap st |}.
Definition with_extracted (st : script_state) (e : raw_tables) : script_state :=
  {| ast := ast st; extracted := e; decoded := decoded st; gMap := gMap st |}.
Definition with_decoded (st : script_state) (d : decoded_tables) : script_state :=
  {| ast := ast st; extracted := extracted st; decoded := d; gMap := gMap st |}.
Definition with_gMap (st : script_state) (g : alias_map) : script_state :=
  {| ast := ast st; extracted := extracted st; decoded := decoded st; gMap := g |}.

(** Lines 89-108. *)
Definition extract_pass (fuel : nat) : step :=
  fun st =>
    match traverse extract_enter fuel (ast st) (extracted st) with
    | Some (a, e) => (None, with_extracted (with_ast st a) e)
    | None => (Some (Unfinished Extracting), st)
    end.

(** Line 115. *)
Definition decode_config : step :=
  fun st =>
    match fromCharCode_apply (extracted st !! "t"%string) ≫= JSON_parse with
    | Some t => (None, with_decoded st (<["t"%string := t]> (decoded st)))
    | None => (Some (Threw (Decoding "t")), st)
    end.

(** Lines 116-120: [decoded.<key> = decodeArray(extracted.<key>, decoded.t[i])]. *)
Definition decode_table (key : string) (i : nat) : step :=
  fun st =>
    match decoded st !! "t"%string ≫= (fun t => get_index t i) with
    | Some c =>
        match decodeArray (extracted st !! key) c with
        | Some table => (None, with_decoded st (<[key := table]> (decoded st)))
        | None => (Some (Threw (Decoding key)), st)
        end
    | None => (Some (Threw (Decoding key)), st)
    end.

Definition decode_phase : step :=
  decode_config >>>
  decode_table "z" 4 >>>
  decode_table "u" 6 >>>
  decode_table "l" 8 >>>
  decode_table "I" 2 >>>
  decode_table "uB" 0.

(** A decode statement throws and leaves the state as it was, or stores
    its table. *)
Definition decodes (key : string) (f : step) : Prop :=
  forall st : script_state,
    f st = (Some (Threw (Decoding key)), st) \/
    exists table, f st = (None, with_decoded st (<[key := table]> (decoded st))).

(** Without its array, it throws, since the empty text is no JSON. *)
Definition needs_array (key : string) (f : step) : Prop :=
  JSON_parse [] = None ->
  forall st : script_state,
    extracted st !! key = None -> f st = (Some (Threw (Decoding key)), st).

(** Lines 126-162. *)
Definition resolve_pass (fuel : nat) : step :=
  fun st =>
    match traverse (resolve_enter (decoded st)) fuel (ast st) tt with
    | Some (a, _) => (None, with_ast st a)
    | None => (Some (Unfinished Resolving), st)
    end.

(** Lines 168-186. *)
Definition collect_pass (fuel : nat) : step :=
  fun st =>
    match traverse collect_enter fuel (ast st) (gMap st) with
    | Some (a, g) => (None, with_gMap (with_ast st a) g)
    | None => (Some (Unfinished Collecting), st)
    end.

(** Lines 189-214. *)
Definition substitute_pass (fuel : nat) : step :=
  fun st =>
    match traverse (substitute_enter (gMap st)) fuel (ast st) tt with
    | Some (a, _) => (None, with_ast st a)
    | None => (Some (Unfinished Substituting), st)
    end.

(** The state after line 20: the parsed tree and nothing else. *)
Definition initial_state (parsed : node) : script_state :=
  {| ast := parsed; extracted := ∅; decoded := ∅; gMap := ∅ |}.

(** Lines 89-214 on a parsed tree.  What is left of the script after
    [finish] prints the tree and writes the file. *)
Definition run (fuel : nat) (parsed : node) : option outcome * script_state :=
  (extract_pass fuel >>>
   decode_phase >>>
   resolve_pass fuel >>>
   collect_pass fuel >>>
   substitute_pass fuel >>>
   finish) (initial_state parsed).

End Script.

End Definitions.
End Ast.

(** ** Sample programs and tables *)

Module Samples.
Import Ast.

(** The code units of an ASCII text. *)
Definition units (s : string) : Cipher.jsstring :=
  map (fun c => Z.of_nat (nat_of_ascii c)) (list_ascii_of_string s).

Definition quoted (s : string) : string :=
  (String (ascii_of_nat 34) s ++ String (ascii_of_nat 34) EmptyString)%string.

(** [o.name], [o[p]], [f(args)], [e;] *)
Definition dot (o : @node Z) (name : string) : @node Z :=
  MemberExpression o (Identifier name) false.
Definition sub (o p : @node Z) : @node Z := MemberExpression o p true.
Definition call (f : @node Z) (args : list (@node Z)) : @node Z := CallExpression f args.
Definition stmt (e : @node Z) : @node Z := ExpressionStatement e.
Definition assign (l r : @node Z) : @node Z := AssignmentExpression "=" l r.

Definition a_H : @node Z := dot (Identifier "a") "H".
Definition a_G : @node Z := dot (Identifier "a") "G".
Definition a_i : @node Z := dot (Identifier "a") "i".

(** [a.H.z.foo] and [console.log] *)
Definition a_H_z_foo : @node Z := dot (dot a_H "z") "foo".
Definition console_log : @node Z := dot (Identifier "console") "log".

(** [DecodedTable.z = {foo: 42}] *)
Definition table_foo : @json Z := JObject [("foo"%string, JNumber 42)].
Definition decoded_foo : @decoded_tables Z := {["z"%string := table_foo]}.

(** A table whose one key is the empty string. *)
Definition table_empty_key : @json Z := JObject [(""%string, JNumber 42)].
Definition decoded_empty_key : @decoded_tables Z := {["z"%string := table_empty_key]}.

(** [a.i.<key> = function () { return [<bytes>]; }] *)
Definition returns_array (key : string) (bytes : Cipher.jsstring) : @node Z :=
  stmt (assign (dot a_i key)
          (FunctionExpression None []
             [ReturnStatement
                (Some (ArrayExpression (map (fun b => Some (NumericLiteral b)) bytes)))])).

(** The configuration table: nine empty keys. *)
Definition config_text : string :=
  ("[" ++ quoted "" ++ "," ++ quoted "" ++ "," ++ quoted "" ++ ","
       ++ quoted "" ++ "," ++ quoted "" ++ "," ++ quoted "" ++ ","
       ++ quoted "" ++ "," ++ quoted "" ++ "," ++ quoted "" ++ "]")%string.
Definition config_value : @json Z := JArray (replicate 9 (JString "")).

Definition table_foo_text : string := ("{" ++ quoted "foo" ++ ":42}")%string.

(** [JSON.parse] and [atob] on the few texts the sample programs hold: the
    two agree with the host there, and on the empty text, which
    [JSON.parse] rejects.  Elsewhere the samples do not call them. *)
Definition sample_JSON_parse (text : Cipher.jsstring) : option (@json Z) :=
  if decide (text = units config_text) then Some config_value
  else if decide (text = units table_foo_text) then Some table_foo
  else if decide (text = units "{}") then Some (JObject [])
  else None.

Definition sample_atob (v : @value Z) : option Cipher.jsstring :=
  match v with
  | VJson (JString s) => if String.eqb s "" then Some [] else None
  | _ => None
  end.

(** An engine whose [apply] passes on 125000 arguments, as a current one
    does with its default stack. *)
Definition sample_apply_limit : N := 125000.

(** A program that defines five of the six arrays: [uB] is missing. *)
Definition program_without_uB : @node Z :=
  Program
    [returns_array "t" (units config_text);
     returns_array "z" (units table_foo_text);
     returns_array "u" (units "{}");
     returns_array "l" (units "{}");
     returns_array "I" (units "{}");
     stmt (call console_log [a_H_z_foo])].

(** The same with [uB]. *)
Definition program_complete : @node Z :=
  Program
    [returns_array "t" (units config_text);
     returns_array "z" (units table_foo_text);
     returns_array "u" (units "{}");
     returns_array "l" (units "{}");
     returns_array "I" (units "{}");
     returns_array "uB" (units "{}");
     stmt (call console_log [a_H_z_foo])].

End Samples.
(** * Properties *)

(** ** The cipher *)

Module CipherFacts.
Import Cipher.

Example xor_sample : xor [104; 10; 105] [65; 66] = [105; 10; 104].
Proof. reflexivity. Qed.

(** *** Bit-level facts *)

Lemma key_entry_range (x : Z) : 0 <= Z.land x 31 < 32.
Proof.
  split.
  - apply Z.land_nonneg. right. lia.
  - assert (H : Z.land x 31 = x mod 2 ^ 5) by (apply (Z.land_ones x 5); lia).
    rewrite H. apply Z.mod_pos_bound. reflexivity.
Qed.

Lemma key_entry_high_bits (k : Z) : 0 <= k < 32 -> Z.land k 224 = 0.
Proof.
  intros Hk. apply Z.bits_inj'. intros n Hn.
  rewrite Z.land_spec, Z.bits_0.
  destruct (Z.lt_ge_cases n 5) as [Hlt | Hge].
  - assert (Hn5 : n = 0 \/ n = 1 \/ n = 2 \/ n = 3 \/ n = 4) by lia.
    destruct Hn5 as [-> | [-> | [-> | [-> | ->]]]];
      cbn; apply andb_false_r.
  - assert (Hb : Z.testbit k n = false).
    { destruct (Z.eq_dec k 0) as [-> | Hne]; [apply Z.bits_0 |].
      apply Z.bits_above_log2; [lia |].
      assert (Z.log2 k < 5) by (apply Z.log2_lt_pow2; lia). lia. }
    rewrite Hb. reflexivity.
Qed.

Lemma lxor_range (l k : Z) : code_unit l -> 0 <= k < 32 -> code_unit (Z.lxor l k).
Proof.
  unfold code_unit. intros Hl Hk. split.
  - apply Z.lxor_nonneg. lia.
  - destruct (Z.eq_dec (Z.lxor l k) 0) as [-> | Hne]; [lia |].
    assert (Hpos : 0 < Z.lxor l k).
    { assert (0 <= Z.lxor l k) by (apply Z.lxor_nonneg; lia). lia. }
    apply (Z.log2_lt_pow2 _ 16 Hpos).
    assert (Hmax : Z.log2 (Z.lxor l k) <= Z.max (Z.log2 l) (Z.log2 k))
      by (apply Z.log2_lxor; lia).
    assert (Hll : Z.log2 l < 16).
    { destruct (Z.eq_dec l 0) as [-> | ?]; [cbn; lia |].
      apply Z.log2_lt_pow2; lia. }
    assert (Hlk : Z.log2 k < 16).
    { destruct (Z.eq_dec k 0) as [-> | ?]; [cbn; lia |].
      assert (Z.log2 k < 5) by (apply Z.log2_lt_pow2; lia). lia. }
    lia.
Qed.

Lemma lxor_high_bits (l k : Z) :
  0 <= k < 32 -> Z.land (Z.lxor l k) 224 = Z.land l 224.
Proof.
  intros Hk. apply Z.bits_inj'. intros n Hn.
  assert (Hkn : Z.testbit k n && Z.testbit 224 n = false).
  { rewrite <- Z.land_spec, (key_entry_high_bits k Hk). apply Z.bits_0. }
  rewrite !Z.land_spec, Z.lxor_spec.
  destruct (Z.testbit l n), (Z.testbit k n), (Z.testbit 224 n);
    simpl in *; congruence.
Qed.

Lemma lxor_twice (l k : Z) : Z.lxor (Z.lxor l k) k = l.
Proof. rewrite Z.lxor_assoc, Z.lxor_nilpotent. apply Z.lxor_0_r. Qed.

Lemma fromCharCode_id (x : Z) : code_unit x -> fromCharCode x = x.
Proof. intros Hx. apply Z.mod_small. exact Hx. Qed.

Lemma byte_is_code_unit (x : Z) : byte_unit x -> code_unit x.
Proof. unfold byte_unit, code_unit. lia. Qed.

Lemma control_byte_mask (l : Z) : 0 <= l <= 31 -> Z.land l 224 = 0.
Proof. intros Hl. apply key_entry_high_bits. lia. Qed.

(** *** One unit *)

Lemma key_table_ok (c : jsstring) : key_entries_ok (key_table c).
Proof.
  unfold key_entries_ok, key_table. apply Forall_forall. intros k Hin.
  apply list_elem_of_In, in_map_iff in Hin. destruct Hin as [h [<- _]].
  apply key_entry_range.
Qed.

Lemma key_table_length (c : jsstring) : length (key_table c) = key_span c.
Proof. unfold key_table. rewrite length_map. apply length_seq. Qed.

Lemma key_span_pos (c : jsstring) : c <> [] -> (0 < key_span c)%nat.
Proof.
  intros Hc. unfold key_span. destruct c as [| x c']; [congruence |].
  destruct (length (x :: c') <? 32)%nat; simpl; lia.
Qed.

Lemma key_entry_nth (e : list Z) (c : nat) :
  key_entries_ok e -> 0 <= nth c e 0 < 32.
Proof.
  intros He. destruct (nth_in_or_default c e 0) as [Hin | ->]; [| lia].
  unfold key_entries_ok in He. rewrite Forall_forall in He.
  apply He, list_elem_of_In, Hin.
Qed.

Lemma xor_unit_code_unit (e : list Z) (c : nat) (l : Z) :
  key_entries_ok e -> code_unit l -> code_unit (xor_unit e c l).
Proof.
  intros He Hl. unfold xor_unit.
  destruct (negb (Z.land l 224 =? 0)).
  - rewrite fromCharCode_id; apply lxor_range; auto using key_entry_nth.
  - rewrite fromCharCode_id; assumption.
Qed.

Lemma xor_unit_involutive (e : list Z) (c : nat) (l : Z) :
  key_entries_ok e -> code_unit l -> xor_unit e c (xor_unit e c l) = l.
Proof.
  intros He Hl. pose proof (key_entry_nth e c He) as Hk.
  unfold xor_unit at 2.
  destruct (Z.land l 224 =? 0) eqn:Hmask; simpl.
  - rewrite (fromCharCode_id l Hl). unfold xor_unit.
    rewrite Hmask. simpl. apply fromCharCode_id, Hl.
  - rewrite (fromCharCode_id _ (lxor_range l _ Hl Hk)). unfold xor_unit.
    rewrite (lxor_high_bits l _ Hk), Hmask. simpl.
    rewrite lxor_twice. apply fromCharCode_id, Hl.
Qed.

Lemma xor_unit_control (e : list Z) (c : nat) (l : Z) :
  0 <= l <= 31 -> xor_unit e c l = l.
Proof.
  intros Hl. unfold xor_unit. rewrite (control_byte_mask l Hl). simpl.
  apply fromCharCode_id. unfold code_unit. lia.
Qed.

(** *** The loop *)

Lemma xor_loop_fst (d : nat) (e : list Z) (b : jsstring) :
  forall c m, fst (xor_loop d e b c m) = fst (xor_loop d e b c []).
Proof.
  induction b as [| l b IH]; intros c m; simpl; [reflexivity |].
  rewrite (IH _ (m ++ _)), (IH _ [_]). reflexivity.
Qed.

Lemma xor_loop_snd (d : nat) (e : list Z) (b : jsstring) :
  forall c m, snd (xor_loop d e b c m) = m ++ snd (xor_loop d e b c []).
Proof.
  induction b as [| l b IH]; intros c m; simpl.
  - symmetry. apply app_nil_r.
  - rewrite (IH _ (m ++ _)), (IH _ [_]). rewrite <- app_assoc. reflexivity.
Qed.

Lemma xor_loop_cons (d : nat) (e : list Z) (l : Z) (b : jsstring) (c : nat) :
  snd (xor_loop d e (l :: b) c []) =
  xor_unit e c l :: snd (xor_loop d e b (next_index d c) []).
Proof. simpl. rewrite xor_loop_snd. reflexivity. Qed.

Lemma next_index_mod (d c : nat) :
  (c < d)%nat -> next_index d c = (S c mod d)%nat.
Proof.
  intros Hc. unfold next_index.
  destruct (Nat.eqb_spec (S c) d) as [<- | Hne].
  - symmetry. apply Nat.Div0.mod_same.
  - symmetry. apply Nat.mod_small. lia.
Qed.

Lemma next_index_lt (d c : nat) : (c < d)%nat -> (next_index d c < d)%nat.
Proof.
  intros Hc. unfold next_index.
  destruct (Nat.eqb_spec (S c) d); lia.
Qed.

(** The index after a run of units depends on their number only. *)
Lemma xor_loop_index (d : nat) (e : list Z) (b : jsstring) :
  forall c m, (c < d)%nat ->
  fst (xor_loop d e b c m) = ((c + length b) mod d)%nat.
Proof.
  induction b as [| l b IH]; intros c m Hc; simpl.
  - rewrite Nat.add_0_r. symmetry. apply Nat.mod_small, Hc.
  - rewrite IH by (apply next_index_lt, Hc).
    rewrite (next_index_mod d c Hc).
    rewrite Nat.Div0.add_mod_idemp_l. f_equal. lia.
Qed.

Lemma xor_loop_involutive (d : nat) (e : list Z) (b : jsstring) :
  key_entries_ok e -> Forall code_unit b ->
  forall c, snd (xor_loop d e (snd (xor_loop d e b c [])) c []) = b.
Proof.
  intros He Hb. induction Hb as [| l b Hl Hb IH]; intros c; [reflexivity |].
  rewrite xor_loop_cons, xor_loop_cons, IH.
  rewrite (xor_unit_involutive e c l He Hl). reflexivity.
Qed.

Lemma xor_loop_lookup (d : nat) (e : list Z) (b : jsstring) (h : nat) (l : Z) :
  forall c, b !! h = Some l ->
  snd (xor_loop d e b c []) !! h =
  Some (xor_unit e (fst (xor_loop d e (take h b) c [])) l).
Proof.
  revert h. induction b as [| x b IH]; intros h c Hh; [discriminate |].
  rewrite xor_loop_cons. destruct h as [| h]; simpl in *.
  - congruence.
  - rewrite xor_loop_fst. apply IH, Hh.
Qed.

(** The transform is its own inverse on every well-formed string, whatever
    the key. *)
Lemma xor_involutive_code_units (b c : jsstring) :
  Forall code_unit b -> xor (xor b c) c = b.
Proof.
  intros Hb. unfold xor. destruct c as [| k c']; [reflexivity |].
  apply xor_loop_involutive; [apply key_table_ok | exact Hb].
Qed.

Lemma rolling_index_mod (b c : jsstring) (n : nat) :
  c <> [] -> (n <= length b)%nat ->
  rolling_index b c n = (n mod key_span c)%nat.
Proof.
  intros Hc Hn. unfold rolling_index.
  rewrite xor_loop_index by (apply key_span_pos, Hc).
  rewrite length_take. f_equal. lia.
Qed.

(** C1: on a byte sequence whose bytes all have one of the bits 0xE0 set,
    and with a non-empty key, applying [xor] twice with the same key gives
    the sequence back. *)
Theorem xor_involution (b key : jsstring) :
  Forall (fun x => byte_unit x /\ Z.land x 224 <> 0) b ->
  key <> [] ->
  xor (xor b key) key = b.
Proof.
  intros Hb _. apply xor_involutive_code_units.
  eapply Forall_impl; [exact Hb |].
  intros x [Hx _]. apply byte_is_code_unit, Hx.
Qed.

(** The bytes of [hi!] under the key [AB]. *)
Lemma xor_involution_witness :
  xor (xor [104; 105; 33] [65; 66]) [65; 66] = [104; 105; 33].
Proof.
  apply xor_involution.
  - repeat (apply List.Forall_cons; [split; [unfold byte_unit; lia | discriminate] |]).
    apply List.Forall_nil.
  - discriminate.
Defined.

(** C6: a byte of value at most 31 comes out unchanged at its position, for
    every key, and the rolling index still moves past it: with a non-empty
    key the index after the byte is the index before it plus one, modulo
    [d = min(key length, 32)], which is the number of units consumed so far
    modulo [d]. *)
Theorem xor_control_byte_passthrough (b key : jsstring) (h : nat) (l : Z) :
  b !! h = Some l ->
  0 <= l <= 31 ->
  xor b key !! h = Some l /\
  (key <> [] ->
   rolling_index b key (S h) = (S (rolling_index b key h) mod key_span key)%nat /\
   rolling_index b key (S h) = (S h mod key_span key)%nat).
Proof.
  intros Hh Hl. split.
  - unfold xor. destruct key as [| k key']; [exact Hh |].
    rewrite (xor_loop_lookup _ _ b h l 0%nat Hh).
    f_equal. apply xor_unit_control, Hl.
  - intros Hkey.
    assert (Hlt : (h < length b)%nat) by (eapply lookup_lt_Some; exact Hh).
    rewrite !rolling_index_mod by (auto; lia).
    split; [| reflexivity].
    pose proof (key_span_pos key Hkey) as Hd.
    rewrite <- Nat.add_1_r, <- (Nat.add_1_r (h mod _)).
    rewrite Nat.Div0.add_mod_idemp_l. reflexivity.
Qed.

(** A line feed between two letters. *)
Lemma xor_control_byte_passthrough_witness :
  let b := [104; 10; 105] in
  let key := [65; 66] in
  xor b key !! 1%nat = Some 10 /\
  (key <> [] ->
   rolling_index b key 2 = (S (rolling_index b key 1) mod key_span key)%nat /\
   rolling_index b key 2 = (2 mod key_span key)%nat).
Proof.
  apply (xor_control_byte_passthrough [104; 10; 105] [65; 66] 1 10).
  - reflexivity.
  - lia.
Defined.

(** C7: with the empty key the transform returns its input unchanged. *)
Theorem xor_empty_key (b : jsstring) : xor b [] = b.
Proof. reflexivity. Qed.

End CipherFacts.

(** ** More about the cipher *)

Module CipherMore.
Import Cipher CipherFacts.

(** *** The key table *)

Lemma key_span_empty (key : jsstring) : key_span key = 0%nat <-> key = [].
Proof.
  split; [| intros ->; reflexivity].
  destruct key as [| x key]; [reflexivity |].
  pose proof (key_span_pos (x :: key)) as Hpos. intros H.
  assert (0 < key_span (x :: key))%nat by (apply Hpos; discriminate). lia.
Qed.

Lemma key_span_bound (key : jsstring) :
  (key_span key <= length key)%nat /\ (key_span key <= 32)%nat.
Proof.
  unfold key_span. destruct (Nat.ltb_spec (length key) 32); lia.
Qed.

Lemma nth_map_in {A B : Type} (f : A -> B) (l : list A) (h : nat) (d : A) (d' : B) :
  (h < length l)%nat -> nth h (map f l) d' = f (nth h l d).
Proof.
  revert h. induction l as [| x l IH]; intros h Hh; simpl in *; [lia |].
  destruct h as [| h]; [reflexivity | apply IH; lia].
Qed.

Lemma nth_take_in {A : Type} (l : list A) (n h : nat) (d : A) :
  (h < n)%nat -> nth h l d = nth h (take n l) d.
Proof.
  revert n h. induction l as [| x l IH]; intros n h Hh.
  - destruct n, h; reflexivity.
  - destruct n as [| n]; [lia |]. destruct h as [| h]; [reflexivity |].
    simpl. apply IH. lia.
Qed.

Lemma key_table_nth (key : jsstring) (h : nat) :
  (h < key_span key)%nat ->
  nth h (key_table key) 0 = Z.land (nth h key 0) 31.
Proof.
  intros Hh. unfold key_table.
  rewrite (nth_map_in _ _ h 0%nat) by (rewrite length_seq; exact Hh).
  rewrite seq_nth by exact Hh. reflexivity.
Qed.

Lemma key_table_ext (k1 k2 : jsstring) :
  key_span k1 = key_span k2 ->
  (forall h, (h < key_span k1)%nat ->
             Z.land (nth h k1 0) 31 = Z.land (nth h k2 0) 31) ->
  key_table k1 = key_table k2.
Proof.
  intros Hspan Hunits. unfold key_table. rewrite <- Hspan.
  apply map_ext_in. intros h Hin. apply in_seq in Hin.
  apply Hunits. lia.
Qed.

(** Keys of the same span whose first units agree in their low five bits
    encode alike. *)
Lemma xor_key_ext (b k1 k2 : jsstring) :
  key_span k1 = key_span k2 ->
  (forall h, (h < key_span k1)%nat ->
             Z.land (nth h k1 0) 31 = Z.land (nth h k2 0) 31) ->
  xor b k1 = xor b k2.
Proof.
  intros Hspan Hunits.
  pose proof (key_table_ext k1 k2 Hspan Hunits) as Htable.
  unfold xor. destruct k1 as [| x1 k1], k2 as [| x2 k2]; try reflexivity.
  - symmetry in Hspan. apply key_span_empty in Hspan. discriminate.
  - apply key_span_empty in Hspan. discriminate.
  - rewrite Hspan, Htable. reflexivity.
Qed.

(** *** The loop, unit by unit *)

Lemma xor_loop_length (d : nat) (e : list Z) (b : jsstring) :
  forall c m, length (snd (xor_loop d e b c m)) = (length m + length b)%nat.
Proof.
  induction b as [| l b IH]; intros c m; simpl; [lia |].
  rewrite IH, length_app. simpl. lia.
Qed.

Lemma xor_loop_app (d : nat) (e : list Z) (b1 b2 : jsstring) :
  forall c,
    snd (xor_loop d e (b1 ++ b2) c [])
    = snd (xor_loop d e b1 c [])
      ++ snd (xor_loop d e b2 (fst (xor_loop d e b1 c [])) []).
Proof.
  induction b1 as [| l b1 IH]; intros c; [reflexivity |].
  rewrite <- app_comm_cons, !xor_loop_cons, IH.
  simpl. rewrite (xor_loop_fst d e b1 _ [_]). reflexivity.
Qed.

Lemma xor_unit_high_bits (e : list Z) (c : nat) (l : Z) :
  key_entries_ok e -> code_unit l ->
  Z.shiftr (xor_unit e c l) 5 = Z.shiftr l 5.
Proof.
  intros He Hl. pose proof (key_entry_nth e c He) as Hk.
  unfold xor_unit. destruct (negb (Z.land l 224 =? 0)).
  - rewrite (fromCharCode_id _ (lxor_range l _ Hl Hk)).
    rewrite Z.shiftr_lxor.
    assert (Hzero : Z.shiftr (nth c e 0) 5 = 0).
    { rewrite Z.shiftr_div_pow2 by lia. apply Z.div_small. simpl. lia. }
    rewrite Hzero. apply Z.lxor_0_r.
  - rewrite (fromCharCode_id l Hl). reflexivity.
Qed.

Lemma xor_loop_high_bits (d : nat) (e : list Z) (b : jsstring) :
  key_entries_ok e -> Forall code_unit b ->
  forall c,
    Forall2 (fun l o => code_unit o /\ Z.shiftr o 5 = Z.shiftr l 5)
      b (snd (xor_loop d e b c [])).
Proof.
  intros He Hb. induction Hb as [| l b Hl Hb IH]; intros c.
  - constructor.
  - rewrite xor_loop_cons. constructor; [| apply IH].
    split; [apply xor_unit_code_unit | apply xor_unit_high_bits]; assumption.
Qed.

Lemma xor_high_bits_all (b key : jsstring) :
  Forall code_unit b ->
  Forall2 (fun l o => code_unit o /\ Z.shiftr o 5 = Z.shiftr l 5) b (xor b key).
Proof.
  intros Hb. unfold xor. destruct key as [| k key].
  - induction Hb; constructor; auto.
  - apply xor_loop_high_bits; [apply key_table_ok | exact Hb].
Qed.

Lemma byte_of_high_bits (l o : Z) :
  byte_unit l -> code_unit o -> Z.shiftr o 5 = Z.shiftr l 5 -> byte_unit o.
Proof.
  unfold byte_unit, code_unit. intros Hl Ho Heq.
  rewrite !Z.shiftr_div_pow2 in Heq by lia.
  change (2 ^ 5) with 32 in Heq.
  pose proof (Z.div_mod o 32) as Hdo. pose proof (Z.mod_pos_bound o 32) as Hmo.
  pose proof (Z.div_mod l 32) as Hdl. pose proof (Z.mod_pos_bound l 32) as Hml.
  lia.
Qed.

(** *** Properties *)

(** X1: the output has as many units as the input, whatever the key. *)
Theorem xor_length (b key : jsstring) : length (xor b key) = length b.
Proof.
  unfold xor. destruct key as [| k key]; [reflexivity |].
  rewrite xor_loop_length. reflexivity.
Qed.

(** X2: on every well-formed string, not on bytes at or above 32 only, and
    for every key, the empty one included, [xor] undoes itself. *)
Theorem xor_self_inverse (b key : jsstring) :
  Forall code_unit b -> xor (xor b key) key = b.
Proof. apply xor_involutive_code_units. Qed.

(** A string with a control character, a letter and a unit beyond the
    bytes. *)
Lemma xor_self_inverse_witness :
  xor (xor [10; 104; 8364] [65; 66; 67]) [65; 66; 67] = [10; 104; 8364].
Proof.
  apply xor_self_inverse.
  repeat (apply List.Forall_cons; [unfold code_unit; lia |]).
  apply List.Forall_nil.
Defined.

(** X3: of the key only the low five bits of its first 32 units count: the
    units after the 32nd are never read, and masking every unit with 31
    changes nothing. *)
Theorem xor_key_reduced (b key : jsstring) :
  xor b key = xor b (take 32 key) /\
  xor b key = xor b (map (fun x => Z.land x 31) key).
Proof.
  split.
  - apply xor_key_ext.
    + unfold key_span. rewrite length_take.
      repeat match goal with
             | |- context [(?x <? ?y)%nat] => destruct (Nat.ltb_spec x y)
             end; lia.
    + intros h Hh. pose proof (key_span_bound key) as [_ H32].
      f_equal. apply nth_take_in. lia.
  - apply xor_key_ext.
    + unfold key_span. rewrite length_map. reflexivity.
    + intros h Hh. pose proof (key_span_bound key) as [Hlen _].
      rewrite (nth_map_in _ key h 0) by lia.
      rewrite <- Z.land_assoc. reflexivity.
Qed.

(** X4: the unit at position [h] is combined with the key unit at position
    [h mod d], [d = min(key length, 32)]: a unit below 32 (or with no bit
    of 0xE0 set) is kept, any other is XORed with the low five bits of
    that key unit. *)
Theorem xor_unit_at (b key : jsstring) (h : nat) (l : Z) :
  key <> [] ->
  b !! h = Some l ->
  code_unit l ->
  xor b key !! h
  = Some (if Z.land l 224 =? 0
          then l
          else Z.lxor l (Z.land (nth (h mod key_span key) key 0) 31)).
Proof.
  intros Hkey Hh Hl.
  pose proof (key_span_pos key Hkey) as Hd.
  assert (Hlt : (h < length b)%nat) by (eapply lookup_lt_Some; exact Hh).
  unfold xor. destruct key as [| k key']; [congruence |].
  rewrite (xor_loop_lookup _ _ b h l 0%nat Hh).
  rewrite xor_loop_index by exact Hd.
  rewrite length_take, Nat.add_0_l, Nat.min_l by lia.
  f_equal. unfold xor_unit.
  assert (Hmod : (h mod key_span (k :: key') < key_span (k :: key'))%nat)
    by (apply Nat.mod_upper_bound; lia).
  rewrite key_table_nth by exact Hmod.
  destruct (Z.land l 224 =? 0); simpl.
  - apply fromCharCode_id, Hl.
  - apply fromCharCode_id, lxor_range; [exact Hl | apply key_entry_range].
Qed.

Lemma xor_unit_at_witness :
  xor [72; 10; 105; 33] [65; 66] !! 2%nat
  = Some (if Z.land 105 224 =? 0
          then 105
          else Z.lxor 105 (Z.land (nth (2 mod key_span [65; 66]) [65; 66] 0) 31)).
Proof.
  apply (xor_unit_at [72; 10; 105; 33] [65; 66] 2 105).
  - discriminate.
  - reflexivity.
  - unfold code_unit. lia.
Defined.

(** X5: every output unit is a code unit and differs from its input unit
    in the low five bits at most. *)
Theorem xor_keeps_high_bits (b key : jsstring) :
  Forall code_unit b ->
  Forall2 (fun l o => code_unit o /\ Z.shiftr o 5 = Z.shiftr l 5) b (xor b key).
Proof. apply xor_high_bits_all. Qed.

Lemma xor_keeps_high_bits_witness :
  Forall2 (fun l o => code_unit o /\ Z.shiftr o 5 = Z.shiftr l 5)
    [72; 10; 105] (xor [72; 10; 105] [65; 66]).
Proof.
  apply xor_keeps_high_bits.
  repeat (apply List.Forall_cons; [unfold code_unit; lia |]).
  apply List.Forall_nil.
Defined.

(** X6: a byte string comes out as a byte string. *)
Theorem xor_bytes_closed (b key : jsstring) :
  Forall byte_unit b -> Forall byte_unit (xor b key).
Proof.
  intros Hb.
  assert (Hcu : Forall code_unit b).
  { eapply Forall_impl; [exact Hb |]. intros x. apply byte_is_code_unit. }
  pose proof (xor_high_bits_all b key Hcu) as H2.
  induction H2 as [| l o b' out [Ho Heq] _ IH].
  - constructor.
  - apply Forall_cons in Hb as [Hl Hb]. apply Forall_cons in Hcu as [_ Hcu].
    constructor; [eapply byte_of_high_bits; eauto | apply IH; assumption].
Qed.

Lemma xor_bytes_closed_witness :
  Forall byte_unit (xor [255; 0; 128; 31] [255; 254; 253]).
Proof.
  apply xor_bytes_closed.
  repeat (apply List.Forall_cons; [unfold byte_unit; lia |]).
  apply List.Forall_nil.
Defined.

(** X7: the transform works block by block: where the first part's length
    is a multiple of [d], the key starts over on the second part. *)
Theorem xor_app (b1 b2 key : jsstring) :
  (length b1 mod key_span key = 0)%nat ->
  xor (b1 ++ b2) key = xor b1 key ++ xor b2 key.
Proof.
  intros Hmod. unfold xor. destruct key as [| k key]; [reflexivity |].
  rewrite xor_loop_app.
  rewrite xor_loop_index by (apply key_span_pos; discriminate).
  rewrite Nat.add_0_l, Hmod. reflexivity.
Qed.

Lemma xor_app_witness :
  xor ([72; 105] ++ [33; 10; 63]) [65; 66]
  = xor [72; 105] [65; 66] ++ xor [33; 10; 63] [65; 66].
Proof. apply xor_app. reflexivity. Defined.

End CipherMore.

(** ** Syntax trees and traversals *)

Module TreeFacts.
Import Ast.

Section Facts.
Context {number : Type} `{!EqDecision number} `{!JSNumber number}.
Local Abbreviation node := (@Ast.node number).
Local Abbreviation json := (@Ast.json number).

(** *** Depth *)

Lemma depth_pos (n : node) : (1 <= depth n)%nat.
Proof. destruct n; simpl; lia. Qed.

Lemma leb_succ_max (a b f : nat) :
  (S (Nat.max a b) <=? S f)%nat = ((a <=? f)%nat && (b <=? f)%nat).
Proof.
  destruct (Nat.leb_spec a f), (Nat.leb_spec b f), (Nat.leb_spec (S (Nat.max a b)) (S f));
    simpl; try reflexivity; lia.
Qed.

Lemma leb_max (a b f : nat) :
  (Nat.max a b <=? f)%nat = ((a <=? f)%nat && (b <=? f)%nat).
Proof.
  destruct (Nat.leb_spec a f), (Nat.leb_spec b f), (Nat.leb_spec (Nat.max a b) f);
    simpl; try reflexivity; lia.
Qed.

(** *** Visitors that replace nothing *)

Section Quiet.
Context {St : Type} (enter : @visitor number St).

Lemma observe_app (l1 l2 : list (position * node)) (s : St) :
  observe enter (l1 ++ l2) s = observe enter l2 (observe enter l1 s).
Proof. apply fold_left_app. Qed.

Lemma observe_flat_map (f : node -> list (position * node)) (l : list node) (s : St) :
  observe enter (flat_map f l) s =
  fold_left (fun s c => observe enter (f c) s) l s.
Proof.
  revert s. induction l as [| c l IH]; intros s; simpl; [reflexivity |].
  rewrite observe_app. apply IH.
Qed.

Lemma visit_list_quiet (rec : node -> St -> visit_result) (fuel : nat)
    (l : list node) :
  Forall (fun c => forall s, rec c s = quiet_answer enter fuel Elsewhere c s) l ->
  forall s,
    visit_list rec l s =
    if (list_max (map depth l) <=? fuel)%nat
    then Some (l, observe enter (flat_map (preorder Elsewhere) l) s)
    else None.
Proof.
  induction 1 as [| c l Hc _ IH]; intros s; simpl; [reflexivity |].
  rewrite Hc, leb_max. unfold quiet_answer.
  destruct (depth c <=? fuel)%nat; simpl; [| reflexivity].
  rewrite IH. destruct (list_max (map depth l) <=? fuel)%nat; [| reflexivity].
  rewrite observe_app. reflexivity.
Qed.

Lemma visit_option_quiet (rec : node -> St -> visit_result) (fuel : nat)
    (o : option node) :
  (forall c, o = Some c -> forall s, rec c s = quiet_answer enter fuel Elsewhere c s) ->
  forall s,
    visit_option rec o s =
    if (depth_option depth o <=? fuel)%nat
    then Some (o, observe enter
                    (match o with Some c => preorder Elsewhere c | None => [] end) s)
    else None.
Proof.
  intros H s. destruct o as [c |]; simpl; [| reflexivity].
  rewrite (H c eq_refl). unfold quiet_answer.
  destruct (depth c <=? fuel)%nat; reflexivity.
Qed.

Lemma visit_elements_quiet (rec : node -> St -> visit_result) (fuel : nat)
    (l : list (option node)) :
  Forall (fun o => forall c, o = Some c ->
                   forall s, rec c s = quiet_answer enter fuel Elsewhere c s) l ->
  forall s,
    visit_elements rec l s =
    if (list_max (map (depth_option depth) l) <=? fuel)%nat
    then Some (l, observe enter
                    (flat_map (fun o => match o with
                                        | Some c => preorder Elsewhere c
                                        | None => []
                                        end) l) s)
    else None.
Proof.
  induction 1 as [| o l Ho _ IH]; intros s; simpl; [reflexivity |].
  rewrite (visit_option_quiet rec fuel o Ho), leb_max.
  destruct (depth_option depth o <=? fuel)%nat; simpl; [| reflexivity].
  rewrite IH.
  destruct (list_max (map (depth_option depth) l) <=? fuel)%nat; [| reflexivity].
  rewrite observe_app. reflexivity.
Qed.

Lemma Forall_flat_map_each {A B : Type} (P : B -> Prop) (f : A -> list B) (l : list A) :
  Forall P (flat_map f l) -> Forall (fun c => Forall P (f c)) l.
Proof.
  induction l as [| c l IH]; simpl; intros H; [constructor |].
  apply Forall_app in H as [Hc Hl]. constructor; auto.
Qed.

Ltac split_quiet :=
  repeat match goal with
         | H : Forall _ (_ ++ _) |- _ => apply Forall_app in H as [? ?]
         | H : Forall _ (flat_map _ _) |- _ => apply Forall_flat_map_each in H
         end.

(** The children of [n] are visited without a replacement: the node comes
    back as it was.  [IH] is the same fact about a visit with this fuel. *)
Lemma traverse_keys_quiet (fuel : nat) :
  (forall pos (n : node) s,
      Forall (quiet enter) (preorder pos n) ->
      visit enter fuel pos n s = quiet_answer enter fuel pos n s) ->
  forall pos (n : node) s,
    Forall (quiet enter) (tail (preorder pos n)) ->
    traverse_keys (visit enter fuel) n s =
    if (depth n <=? S fuel)%nat
    then Some (n, observe enter (tail (preorder pos n)) s)
    else None.
Proof.
  intros IH pos n s Hq.
  assert (Hlist : forall l, Forall (fun c => Forall (quiet enter) (preorder Elsewhere c)) l ->
              Forall (fun c => forall s, visit enter fuel Elsewhere c s
                                         = quiet_answer enter fuel Elsewhere c s) l).
  { intros l Hl. eapply Forall_impl; [exact Hl |]. intros c Hc s'. apply IH, Hc. }
  assert (Hopt : forall o, Forall (quiet enter)
                   (match o with Some c => preorder Elsewhere c | None => [] end) ->
              forall c, o = Some c -> forall s,
                visit enter fuel Elsewhere c s = quiet_answer enter fuel Elsewhere c s).
  { intros o Ho c -> s'. apply IH, Ho. }
  assert (Helts : forall l, Forall (fun o => Forall (quiet enter)
                     (match o with Some c => preorder Elsewhere c | None => [] end)) l ->
              Forall (fun o => forall c, o = Some c -> forall s,
                        visit enter fuel Elsewhere c s
                        = quiet_answer enter fuel Elsewhere c s) l).
  { intros l Hl. eapply Forall_impl; [exact Hl |]. intros o Ho. apply Hopt, Ho. }
  destruct n; simpl in Hq; split_quiet;
    simpl traverse_keys; simpl depth; simpl preorder; simpl tail;
    rewrite ?leb_succ_max, ?leb_max; simpl;
    try reflexivity;
    repeat (first
              [ rewrite IH by assumption
              | rewrite (visit_list_quiet (visit enter fuel Elsewhere) fuel)
                  by (apply Hlist; assumption)
              | rewrite (visit_option_quiet (visit enter fuel Elsewhere) fuel)
                  by (apply Hopt; assumption)
              | rewrite (visit_elements_quiet (visit enter fuel Elsewhere) fuel)
                  by (apply Helts; assumption) ];
            unfold quiet_answer;
            match goal with
            | |- context [if (?a <=? fuel)%nat then _ else _] =>
                destruct (a <=? fuel)%nat
            end; simpl; try reflexivity);
    rewrite ?observe_app; reflexivity.
Qed.

(** A visit during which the visitor replaces nothing returns the tree as
    it was, with the visitor's observations in visiting order, exactly
    when the fuel covers the tree's depth. *)
Lemma visit_quiet (fuel : nat) :
  forall pos (n : node) s,
    Forall (quiet enter) (preorder pos n) ->
    visit enter fuel pos n s = quiet_answer enter fuel pos n s.
Proof.
  induction fuel as [| fuel IH]; intros pos n s Hq.
  - unfold quiet_answer. pose proof (depth_pos n) as Hd.
    destruct (Nat.leb_spec (depth n) 0); [lia | reflexivity].
  - simpl visit.
    destruct (enter pos n s) as [r s1] eqn:He.
    assert (Hhead : r = None).
    { destruct n; simpl in Hq; apply Forall_cons in Hq as [Hh _];
        specialize (Hh s); simpl in Hh; rewrite He in Hh; exact Hh. }
    subst r.
    assert (Htail : Forall (quiet enter) (tail (preorder pos n))).
    { destruct n; simpl in Hq; apply Forall_cons in Hq as [_ Hq]; exact Hq. }
    rewrite (traverse_keys_quiet fuel IH pos n s1 Htail).
    unfold quiet_answer.
    replace (observe enter (preorder pos n) s)
      with (observe enter (tail (preorder pos n)) s1); [reflexivity |].
    destruct n; unfold observe; simpl; rewrite He; reflexivity.
Qed.

Lemma traverse_quiet (fuel : nat) (tree : node) (s : St) :
  Forall (quiet enter) (visited tree) ->
  traverse enter fuel tree s =
  if (depth tree <=? S fuel)%nat
  then Some (tree, observe enter (visited tree) s)
  else None.
Proof.
  intros Hq. unfold traverse.
  apply (traverse_keys_quiet fuel (visit_quiet fuel) Elsewhere tree s Hq).
Qed.

(** A visitor that never replaces leaves every tree as it was. *)
Lemma traverse_unchanged (fuel : nat) (tree tree' : node) (s s' : St) :
  (forall pn, quiet enter pn) ->
  traverse enter fuel tree s = Some (tree', s') ->
  tree' = tree /\ s' = observe enter (visited tree) s.
Proof.
  intros Hq Ht. rewrite traverse_quiet in Ht by (apply Forall_forall; auto).
  destruct (depth tree <=? S fuel)%nat; [| discriminate].
  injection Ht as <- <-. split; reflexivity.
Qed.

End Quiet.

(** *** Structural comparison *)






(** *** What the visitors leave alone *)

Lemma extract_enter_quiet (pn : position * node) : quiet extract_enter pn.
Proof.
  intros s. unfold extract_enter. destruct (snd pn); try reflexivity.
  destruct (negb _); reflexivity.
Qed.

Lemma collect_enter_quiet (pn : position * node) : quiet collect_enter pn.
Proof.
  intros s. unfold collect_enter.
  destruct (alias_assignment (snd pn)) as [[k rhs] |]; reflexivity.
Qed.

Lemma resolve_enter_write_target (decoded : decoded_tables) pos (n : node) s :
  is_write_target pos = true -> resolve_enter decoded pos n s = (None, s).
Proof.
  intros Hw. unfold resolve_enter. destruct n; try reflexivity.
  rewrite Hw. reflexivity.
Qed.

Lemma substitute_enter_write_target (gMap : alias_map) pos (n : node) s :
  is_write_target pos = true -> substitute_enter gMap pos n s = (None, s).
Proof.
  intros Hw. unfold substitute_enter. destruct n; try reflexivity.
  rewrite Hw. repeat case_match; reflexivity.
Qed.

Lemma resolve_enter_not_member (decoded : decoded_tables) pos (n : node) s :
  isMemberExpression n = false -> resolve_enter decoded pos n s = (None, s).
Proof. destruct n; simpl; intros Hn; try reflexivity; discriminate. Qed.

Lemma substitute_enter_not_member (gMap : alias_map) pos (n : node) s :
  isMemberExpression n = false -> substitute_enter gMap pos n s = (None, s).
Proof. destruct n; simpl; intros Hn; try reflexivity; discriminate. Qed.

(** *** Literals built from decoded values *)

Lemma jsonToAst_not_member (v : json) : isMemberExpression (jsonToAst v) = false.
Proof. destruct v; reflexivity. Qed.

Lemma jsonToAst_differs (v : json) (o p : node) (c : bool) :
  node_eqb (jsonToAst v) (MemberExpression o p c) = false.
Proof. destruct v; reflexivity. Qed.

Lemma jsonToAst_member_free (v : json) :
  forall pos,
    Forall (fun pn => isMemberExpression (snd pn) = false)
      (preorder pos (jsonToAst v)).
Proof.
  induction v as [| | | | elements IH | entries IH]; intros pos; simpl;
    try (repeat constructor; fail).
  - constructor; [reflexivity |].
    induction IH as [| x Hx l _ IHl]; simpl; [constructor |].
    apply Forall_app. split; [apply Hx | apply IHl].
  - constructor; [reflexivity |].
    induction IH as [| kx Hkx l _ IHl]; simpl; [constructor |].
    destruct Hkx as [k _ x Hx]. simpl.
    constructor; [reflexivity |]. constructor; [reflexivity |].
    apply Forall_app. split; [apply Hx | apply IHl].
Qed.

(** A visitor that acts on member expressions only returns a literal as it
    is. *)
Lemma literal_stable (enter : @visitor number unit) (v : json) pos (fuel : nat) :
  (forall pos (n : node) s, isMemberExpression n = false -> enter pos n s = (None, s)) ->
  (depth (jsonToAst v) <= fuel)%nat ->
  visit enter fuel pos (jsonToAst v) tt = Some (jsonToAst v, tt).
Proof.
  intros Henter Hfuel.
  rewrite visit_quiet.
  - unfold quiet_answer.
    destruct (Nat.leb_spec (depth (jsonToAst v)) fuel); [| lia].
    destruct (observe enter _ tt). reflexivity.
  - eapply Forall_impl; [apply jsonToAst_member_free |].
    intros [p n] Hn s. simpl in *. rewrite (Henter p n s Hn). reflexivity.
Qed.

(** *** Pass 3: the resolver *)

Lemma visit_step {St : Type} (enter : @visitor number St) (fuel : nat) pos (n : node) s :
  visit enter (S fuel) pos n s =
  match enter pos n s with
  | (Some repl, s1) =>
      if node_eqb repl n
      then traverse_keys (visit enter fuel) n s1
      else if admits pos repl
           then visit enter fuel pos repl s1
           else None
  | (None, s1) => traverse_keys (visit enter fuel) n s1
  end.
Proof. reflexivity. Qed.

(** Outside a target field every replacement is admitted. *)
Lemma admits_outside_target pos (repl : node) :
  pos <> TargetField -> admits pos repl = true.
Proof. destruct pos; try reflexivity. intros H. destruct H. reflexivity. Qed.


Lemma table_key_member (keyName : string) :
  In keyName table_keys -> mem_string keyName table_keys = true.
Proof.
  simpl. intros [<- | [<- | [<- | [<- | [<- | []]]]]]; reflexivity.
Qed.

Lemma own_property_object_table (table : json) (name : string) (v : json) :
  own_property table name = Some v -> is_object_table table = true.
Proof. destruct table; simpl; intros H; try discriminate; reflexivity. Qed.

(** What the visitor does at a three-level access with static names, read
    off lines 137-160. *)
Lemma resolve_enter_access (decoded : decoded_tables) pos (kp fp : node)
    (c1 c2 c3 : bool) (keyName propName : string) (table : json) :
  is_write_target pos = false ->
  truthy_name (staticPropName kp) = Some keyName ->
  In keyName table_keys ->
  truthy_name (staticPropName fp) = Some propName ->
  decoded !! keyName = Some table ->
  is_object_table table = true ->
  resolve_enter decoded pos (proxy_access kp fp c1 c2 c3) tt
  = (valueToAst (get_property table propName), tt).
Proof.
  intros Hpos Hk Hin Hp Hd Ht. unfold resolve_enter, proxy_access.
  cbv beta iota. rewrite Hpos.
  cbn [isIdentifier String.eqb Ascii.eqb Bool.eqb negb].
  rewrite Hk, (table_key_member keyName Hin). cbn [negb].
  rewrite Hp, Hd, Ht. reflexivity.
Qed.

(** A name that is not empty passes the test of lines 146 and 149. *)
Lemma truthy_name_static (name : string) :
  name <> ""%string -> truthy_name (Some name) = Some name.
Proof.
  intros Hne. unfold truthy_name.
  destruct (String.eqb_spec name ""); [contradiction | reflexivity].
Qed.

Lemma table_key_not_empty (keyName : string) :
  In keyName table_keys -> keyName <> ""%string.
Proof.
  simpl. intros [<- | [<- | [<- | [<- | [<- | []]]]]]; discriminate.
Qed.

(** C3, as the code has it: a read of [a.H.<key>.<field>], where [<key>]
    names one of the five tables, the field name is static and not empty,
    and the table has an entry for it, is replaced as a whole by the
    literal of the entry's value: [null], a string, a number and a boolean
    by their literal, an array by the array of its elements' literals, an
    object by an object expression with one property per key, in order.
    The literal takes the place of the access and stays; so
    [f(a.H.<key>.<field>)] comes out as [f(<literal>)].  A read is what
    stands neither in one of the three write positions the visitor tests
    nor in a field that admits an assignment target only. *)
Theorem resolve_read_substitution (decoded : decoded_tables) pos
    (kp fp callee callee' : node)
    (c1 c2 c3 : bool) (keyName propName : string) (table v : json) (fuel : nat) :
  is_write_target pos = false ->
  pos <> TargetField ->
  staticPropName kp = Some keyName ->
  In keyName table_keys ->
  staticPropName fp = Some propName ->
  propName <> ""%string ->
  decoded !! keyName = Some table ->
  own_property table propName = Some v ->
  let access := proxy_access kp fp c1 c2 c3 in
  let literal :=
    match v with
    | JNull => NullLiteral
    | JString s => StringLiteral s
    | JNumber n => NumericLiteral n
    | JBoolean b => BooleanLiteral b
    | JArray elements => ArrayExpression (map (fun x => Some (jsonToAst x)) elements)
    | JObject entries =>
        ObjectExpression
          (map (fun kv => ObjectProperty (StringLiteral (fst kv)) (jsonToAst (snd kv)) false)
             entries)
    end in
  valueToAst (VJson v) = Some literal /\
  resolve_enter decoded pos access tt = (Some literal, tt) /\
  ((depth literal <= fuel)%nat ->
   visit (resolve_enter decoded) (S fuel) pos access tt = Some (literal, tt) /\
   (visit (resolve_enter decoded) (S fuel) Elsewhere callee tt = Some (callee', tt) ->
    visit (resolve_enter decoded) (S (S fuel)) pos (CallExpression callee [access]) tt
    = Some (CallExpression callee' [literal], tt))).
Proof.
  intros Hpos Htarget Hkp Hin Hfp Hne Hd Hown access literal.
  assert (Hk : truthy_name (staticPropName kp) = Some keyName)
    by (rewrite Hkp; apply truthy_name_static, table_key_not_empty, Hin).
  assert (Hp : truthy_name (staticPropName fp) = Some propName)
    by (rewrite Hfp; apply truthy_name_static, Hne).
  assert (Hliteral : jsonToAst v = literal).
  { subst literal. destruct v; try reflexivity.
    simpl. f_equal. apply map_ext. intros [k x]. reflexivity. }
  assert (Henter : forall p, is_write_target p = false ->
            resolve_enter decoded p access tt = (Some literal, tt)).
  { intros p Hp'. subst access.
    rewrite (resolve_enter_access decoded p kp fp c1 c2 c3 keyName propName table)
      by eauto using own_property_object_table.
    unfold get_property. rewrite Hown. cbn [valueToAst]. rewrite Hliteral. reflexivity. }
  assert (Hvisit : forall p, is_write_target p = false -> p <> TargetField ->
            (depth literal <= fuel)%nat ->
            visit (resolve_enter decoded) (S fuel) p access tt = Some (literal, tt)).
  { intros p Hp' Ht Hfuel. rewrite visit_step, (Henter p Hp').
    rewrite <- Hliteral in *. subst access. unfold proxy_access at 1.
    rewrite jsonToAst_differs, (admits_outside_target p _ Ht).
    apply literal_stable; [| exact Hfuel].
    intros q n s. apply resolve_enter_not_member. }
  split; [rewrite <- Hliteral; reflexivity |].
  split; [apply Henter, Hpos |].
  intros Hfuel. split; [apply Hvisit; assumption |].
  intros Hcallee. rewrite visit_step.
  rewrite resolve_enter_not_member by reflexivity.
  cbn [traverse_keys]. rewrite Hcallee. cbn [mbind option_bind visit_list].
  rewrite Hvisit by (try reflexivity; try discriminate; exact Hfuel).
  reflexivity.
Qed.

(** A lookup that finds nothing, or a built-in method, leaves the access as
    it is. *)
Lemma resolve_miss_unmodified (decoded : decoded_tables) pos (kp fp : node)
    (c1 c2 c3 : bool) (keyName propName : string) (table : json) :
  truthy_name (staticPropName kp) = Some keyName ->
  In keyName table_keys ->
  truthy_name (staticPropName fp) = Some propName ->
  decoded !! keyName = Some table ->
  valueToAst (get_property table propName) = None ->
  resolve_enter decoded pos (proxy_access kp fp c1 c2 c3) tt = (None, tt).
Proof.
  intros Hk Hin Hp Hd Hv.
  destruct (is_write_target pos) eqn:Hpos;
    [apply resolve_enter_write_target, Hpos |].
  destruct (is_object_table table) eqn:Ht.
  - rewrite (resolve_enter_access decoded pos kp fp c1 c2 c3 keyName propName table)
      by assumption.
    rewrite Hv. reflexivity.
  - unfold resolve_enter, proxy_access.
    cbv beta iota. rewrite Hpos.
    cbn [isIdentifier String.eqb Ascii.eqb Bool.eqb negb].
    rewrite Hk, (table_key_member keyName Hin). cbn [negb].
    rewrite Hp, Hd, Ht. reflexivity.
Qed.

(** C10: the visitors never read [computed].  At [x[v]] with [v] a bare
    identifier they see what they see at [x.v]: the static name is the
    identifier's text.  So a read of [a.H.<key>[v]] is replaced by the
    table's entry named [v], and a read of [a.G[v]] by the expression
    recorded under [v]. *)
Theorem computed_access_is_static (decoded : decoded_tables) (gMap : alias_map)
    pos (x rhs : node) (v op : string) :
  staticPropName (Identifier v : node) = Some v /\
  resolve_enter decoded pos (MemberExpression x (Identifier v) true) tt
    = resolve_enter decoded pos (MemberExpression x (Identifier v) false) tt /\
  substitute_enter gMap pos (MemberExpression x (Identifier v) true) tt
    = substitute_enter gMap pos (MemberExpression x (Identifier v) false) tt /\
  collect_enter pos (AssignmentExpression op (MemberExpression x (Identifier v) true) rhs) gMap
    = collect_enter pos (AssignmentExpression op (MemberExpression x (Identifier v) false) rhs) gMap /\
  (forall key table entry,
      is_write_target pos = false -> v <> ""%string ->
      In key table_keys -> decoded !! key = Some table ->
      own_property table v = Some entry ->
      resolve_enter decoded pos
        (proxy_access (Identifier key) (Identifier v) false false true) tt
      = (Some (jsonToAst entry), tt)) /\
  (forall e,
      is_write_target pos = false -> v <> ""%string ->
      gMap !! v = Some e ->
      substitute_enter gMap pos (alias_access (Identifier v) false true) tt
      = (Some e, tt)).
Proof.
  assert (Htruthy : forall name : string, name <> ""%string ->
            truthy_name (Some name) = Some name).
  { intros name Hne. unfold truthy_name.
    destruct (String.eqb_spec name ""); [contradiction | reflexivity]. }
  repeat split; try reflexivity.
  - intros key table entry Hpos Hv Hin Hd Hown.
    assert (Hkey : key <> ""%string).
    { simpl in Hin. intros ->.
      destruct Hin as [H | [H | [H | [H | [H | []]]]]]; discriminate. }
    rewrite (resolve_enter_access decoded pos _ _ false false true key v table);
      simpl; eauto using own_property_object_table.
    unfold get_property. rewrite Hown. reflexivity.
  - intros e Hpos Hv He. unfold substitute_enter, alias_access.
    cbn [root_of namespace_of field_object field_property mbind option_bind
         isIdentifier String.eqb Ascii.eqb Bool.eqb andb staticPropName].
    rewrite (Htruthy v Hv), He, Hpos. reflexivity.
Qed.

(** *** Traversals that come back with a tree *)

Lemma list_max_member {A : Type} (f : A -> nat) (l : list A) (x : A) :
  In x l -> (f x <= list_max (map f l))%nat.
Proof.
  induction l as [| y l IH]; simpl; [tauto |].
  intros [-> | H]; [lia | specialize (IH H); lia].
Qed.

(** [preorder] goes through the children. *)
Lemma flat_map_elsewhere (l : list node) :
  flat_map (fun pc : position * node => preorder (fst pc) (snd pc))
    (map (fun c : node => (Elsewhere, c)) l)
  = flat_map (preorder Elsewhere) l.
Proof. induction l as [| c l IH]; simpl; [reflexivity |]. rewrite IH. reflexivity. Qed.

Lemma flat_map_elements (l : list (option node)) :
  flat_map (fun o : option node =>
              match o with Some x => preorder Elsewhere x | None => [] end) l
  = flat_map (preorder Elsewhere) (omap id l).
Proof.
  induction l as [| [x |] l IH]; simpl; [reflexivity | |]; rewrite IH; reflexivity.
Qed.

Lemma preorder_children pos (n : node) :
  preorder pos n
  = (pos, n) :: flat_map (fun pc => preorder (fst pc) (snd pc)) (children n).
Proof.
  destruct n; cbn [preorder children flat_map fst snd];
    rewrite ?flat_map_elsewhere, ?flat_map_elements, ?app_nil_r;
    try reflexivity.
  - destruct id; rewrite !flat_map_app; simpl; rewrite ?app_nil_r; reflexivity.
  - destruct argument; simpl; rewrite ?app_nil_r; reflexivity.
Qed.

(** What holds of every node of a tree holds of every node below each
    child. *)
Lemma Forall_preorder_child (P : position * node -> Prop) pos (n : node) p (c : node) :
  Forall P (preorder pos n) -> In (p, c) (children n) -> Forall P (preorder p c).
Proof.
  rewrite preorder_children. intros H Hin.
  apply Forall_cons in H as [_ H].
  rewrite Forall_flat_map in H.
  rewrite Forall_forall in H. apply (H (p, c)). apply list_elem_of_In, Hin.
Qed.

Lemma children_depth (n : node) p (c : node) :
  In (p, c) (children n) -> (depth c < depth n)%nat.
Proof.
  assert (Hlist : forall l : list node,
            In (p, c) (map (fun c : node => (Elsewhere, c)) l) ->
            (depth c <= list_max (map depth l))%nat).
  { intros l Hin. apply in_map_iff in Hin as [x [[= _ ->] Hin]].
    apply list_max_member, Hin. }
  destruct n; cbn [children depth]; intros Hin;
    repeat match goal with
           | H : In _ (_ :: _) |- _ => destruct H as [[= _ ->] | H]
           | H : In _ [] |- _ => destruct H
           end;
    try lia;
    try (apply Hlist in Hin; lia).
  - apply in_map_iff in Hin as [x [[= _ ->] Hin]].
    apply list_elem_of_In, list_elem_of_omap in Hin as [o [Hin Ho]].
    simpl in Ho. subst o. apply list_elem_of_In in Hin.
    pose proof (list_max_member (depth_option depth) elements (Some c) Hin) as Hle.
    simpl in Hle. lia.
  - apply Hlist in Hin. rewrite !map_app, !list_max_app in Hin.
    destruct id; simpl in *; lia.
  - destruct argument; simpl in *; [| tauto].
    destruct Hin as [[= _ ->] | []]. lia.
Qed.

Section Returns.
Variable rec : position -> node -> unit -> @visit_result number unit.

Lemma visit_list_returns pos (l : list node) :
  Forall (fun c => exists c', rec pos c tt = Some (c', tt)) l ->
  exists l', visit_list (rec pos) l tt = Some (l', tt).
Proof.
  induction 1 as [| c l [c' Hc] _ [l' IH]]; simpl; [eauto |].
  rewrite Hc, IH. eauto.
Qed.

Lemma visit_option_returns pos (o : option node) :
  (forall c, o = Some c -> exists c', rec pos c tt = Some (c', tt)) ->
  exists o', visit_option (rec pos) o tt = Some (o', tt).
Proof.
  intros H. destruct o as [c |]; simpl; [| eauto].
  destruct (H c eq_refl) as [c' ->]. eauto.
Qed.

Lemma visit_elements_returns pos (l : list (option node)) :
  Forall (fun o => forall c, o = Some c -> exists c', rec pos c tt = Some (c', tt)) l ->
  exists l', visit_elements (rec pos) l tt = Some (l', tt).
Proof.
  induction 1 as [| o l Ho _ [l' IH]]; simpl; [eauto |].
  destruct (visit_option_returns pos o Ho) as [o' ->]. rewrite IH. eauto.
Qed.

(** When the visit of every child of [n] comes back, so does the visit of
    the children of [n], one after the other. *)
Lemma traverse_keys_returns (n : node) :
  (forall p c, In (p, c) (children n) -> exists c', rec p c tt = Some (c', tt)) ->
  exists n', traverse_keys rec n tt = Some (n', tt).
Proof.
  intros H.
  assert (Hlist : forall l : list node,
            (forall c, In c l -> In (Elsewhere, c) (children n)) ->
            exists l', visit_list (rec Elsewhere) l tt = Some (l', tt)).
  { intros l Hl. apply visit_list_returns, Forall_forall. intros c Hin.
    apply H, Hl, list_elem_of_In, Hin. }
  assert (Hopt : forall o : option node,
            (forall c, o = Some c -> In (Elsewhere, c) (children n)) ->
            exists o', visit_option (rec Elsewhere) o tt = Some (o', tt)).
  { intros o Ho. apply visit_option_returns. intros c Hc. apply H, Ho, Hc. }
  assert (Helts : forall l : list (option node),
            (forall c, In (Some c) l -> In (Elsewhere, c) (children n)) ->
            exists l', visit_elements (rec Elsewhere) l tt = Some (l', tt)).
  { intros l Hl. apply visit_elements_returns, Forall_forall. intros o Hin c ->.
    apply H, Hl, list_elem_of_In, Hin. }
  assert (Hmap : forall (l : list node) c,
            In c l -> In (Elsewhere, c) (map (fun c : node => (Elsewhere, c)) l)).
  { intros l c Hin. apply in_map_iff. eauto. }
  destruct n; cbn [children] in *; cbn [traverse_keys]; eauto;
    repeat match goal with
           | |- context [rec ?p ?c tt] =>
               let E := fresh "E" in
               destruct (H p c) as [? E];
               [simpl; auto 6 using in_or_app | rewrite E; clear E; simpl]
           | |- context [visit_list (rec Elsewhere) ?l tt] =>
               let E := fresh "E" in
               destruct (Hlist l) as [? E];
               [intros; simpl; auto 8 using in_or_app
               | rewrite E; clear E; simpl]
           | |- context [visit_option (rec Elsewhere) ?o tt] =>
               let E := fresh "E" in
               destruct (Hopt o) as [? E];
               [intros ? ->; simpl; auto 6 using in_or_app
               | rewrite E; clear E; simpl]
           | |- context [visit_elements (rec Elsewhere) ?l tt] =>
               let E := fresh "E" in
               destruct (Helts l) as [? E];
               [intros c Hc; apply Hmap, list_elem_of_In, list_elem_of_omap;
                exists (Some c); split; [apply list_elem_of_In, Hc | reflexivity]
               | rewrite E; clear E; simpl]
           end;
    eauto.
Qed.

End Returns.

(** *** Traversals that do not *)

Section Throws.
Context {St : Type}.
Variable rec : position -> node -> St -> @visit_result number St.


Lemma visit_option_none pos (o : option node) (c : node) :
  o = Some c -> (forall s, rec pos c s = None) ->
  forall s, visit_option (rec pos) o s = None.
Proof. intros -> Hc s. simpl. rewrite Hc. reflexivity. Qed.



End Throws.
(** *** Write positions *)

Lemma visit_quiet_unit (enter : @visitor number unit) (fuel : nat) pos (n : node) :
  Forall (quiet enter) (preorder pos n) ->
  (depth n <= fuel)%nat ->
  visit enter fuel pos n tt = Some (n, tt).
Proof.
  intros Hq Hd. rewrite visit_quiet by exact Hq. unfold quiet_answer.
  destruct (Nat.leb_spec (depth n) fuel); [| lia].
  destruct (observe enter _ tt). reflexivity.
Qed.

Lemma leaf_depth (n : node) : is_leaf n = true -> depth n = 1%nat.
Proof. destruct n; simpl; intros H; try discriminate; reflexivity. Qed.

Lemma leaf_preorder (n : node) pos : is_leaf n = true -> preorder pos n = [(pos, n)].
Proof. destruct n; simpl; intros H; try discriminate; reflexivity. Qed.

Lemma proxy_access_depth (kp fp : node) (c1 c2 c3 : bool) :
  is_leaf kp = true -> is_leaf fp = true ->
  depth (proxy_access kp fp c1 c2 c3) = 4%nat.
Proof.
  intros Hk Hf. simpl. rewrite (leaf_depth kp Hk), (leaf_depth fp Hf). reflexivity.
Qed.

Lemma alias_access_depth (kp : node) (c1 c2 : bool) :
  is_leaf kp = true -> depth (alias_access kp c1 c2) = 3%nat.
Proof. intros Hk. simpl. rewrite (leaf_depth kp Hk). reflexivity. Qed.

(** Below a protected [a.H.<key>.<field>] the resolver finds nothing to
    replace: the two inner accesses are too short to match. *)
Lemma proxy_target_quiet (decoded : decoded_tables) pos (kp fp : node)
    (c1 c2 c3 : bool) :
  is_leaf kp = true -> is_leaf fp = true -> is_write_target pos = true ->
  Forall (quiet (resolve_enter decoded))
    (preorder pos (proxy_access kp fp c1 c2 c3)).
Proof.
  intros Hk Hf Hpos. unfold proxy_access. simpl.
  rewrite (leaf_preorder kp _ Hk), (leaf_preorder fp _ Hf). simpl.
  repeat (apply List.Forall_cons || apply List.Forall_nil);
    intros []; cbn [fst snd]; try reflexivity.
  - rewrite resolve_enter_write_target by exact Hpos. reflexivity.
  - rewrite resolve_enter_not_member; [reflexivity |].
    destruct kp; simpl in Hk; try discriminate; reflexivity.
  - rewrite resolve_enter_not_member; [reflexivity |].
    destruct fp; simpl in Hf; try discriminate; reflexivity.
Qed.

Lemma alias_target_quiet (gMap : alias_map) pos (kp : node) (c1 c2 : bool) :
  is_leaf kp = true -> is_write_target pos = true ->
  Forall (quiet (substitute_enter gMap)) (preorder pos (alias_access kp c1 c2)).
Proof.
  intros Hk Hpos. unfold alias_access. simpl.
  rewrite (leaf_preorder kp _ Hk). simpl.
  repeat (apply List.Forall_cons || apply List.Forall_nil);
    intros []; cbn [fst snd]; try reflexivity.
  - rewrite substitute_enter_write_target by exact Hpos. reflexivity.
  - rewrite substitute_enter_not_member; [reflexivity |].
    destruct kp; simpl in Hk; try discriminate; reflexivity.
Qed.

(** The operand of [delete], the argument of [++] and [--], and the left
    side of an assignment come back from a visit as they were, when they are
    such targets. *)
Lemma protected_operands {enter : @visitor number unit} (target : node) (d : nat) :
  (forall pos (n : node) s, isMemberExpression n = false -> enter pos n s = (None, s)) ->
  (forall pos, is_write_target pos = true ->
               Forall (quiet enter) (preorder pos target)) ->
  depth target = d ->
  forall pos op uop pre rhs fuel,
    (d <= fuel)%nat ->
    visit enter (S fuel) pos (UnaryExpression "delete" target) tt
      = Some (UnaryExpression "delete" target, tt) /\
    visit enter (S fuel) pos (UpdateExpression uop pre target) tt
      = Some (UpdateExpression uop pre target, tt) /\
    visit enter (S fuel) pos (AssignmentExpression op target rhs) tt
      = match visit enter fuel Elsewhere rhs tt with
        | Some (rhs', _) => Some (AssignmentExpression op target rhs', tt)
        | None => None
        end.
Proof.
  intros Hother Hq Hd pos op uop pre rhs fuel Hfuel.
  assert (Htarget : forall p, is_write_target p = true ->
                      visit enter fuel p target tt = Some (target, tt)).
  { intros p Hp. apply visit_quiet_unit; [apply Hq, Hp | lia]. }
  repeat split.
  - rewrite visit_step, Hother by reflexivity. simpl.
    rewrite Htarget by reflexivity. reflexivity.
  - rewrite visit_step, Hother by reflexivity. simpl.
    rewrite Htarget by reflexivity. reflexivity.
  - rewrite visit_step, Hother by reflexivity. simpl.
    rewrite Htarget by reflexivity. simpl.
    destruct (visit enter fuel Elsewhere rhs tt) as [[rhs' []] |]; reflexivity.
Qed.

(** C2, as the code has it: a member expression that is itself the left
    side of an assignment, the argument of [++] or [--], or the operand of
    [delete] is replaced by neither pass.  [delete a.H.z.foo], [a.H.z.foo++]
    and [a.H.z.foo = e] keep their access whatever the tables hold, and so do
    [delete a.G.x], [a.G.x++] and [a.G.x = e]; of an assignment only the
    right side is visited further. *)
Theorem write_target_protection (decoded : decoded_tables) (gMap : alias_map)
    pos (n kp fp rhs : node) (c1 c2 c3 pre : bool) (op uop : string) (fuel : nat) :
  (is_write_target pos = true ->
   resolve_enter decoded pos n tt = (None, tt) /\
   substitute_enter gMap pos n tt = (None, tt)) /\
  (is_leaf kp = true -> is_leaf fp = true -> (4 <= fuel)%nat ->
   let target := proxy_access kp fp c1 c2 c3 in
   visit (resolve_enter decoded) (S fuel) pos (UnaryExpression "delete" target) tt
     = Some (UnaryExpression "delete" target, tt) /\
   visit (resolve_enter decoded) (S fuel) pos (UpdateExpression uop pre target) tt
     = Some (UpdateExpression uop pre target, tt) /\
   visit (resolve_enter decoded) (S fuel) pos (AssignmentExpression op target rhs) tt
     = match visit (resolve_enter decoded) fuel Elsewhere rhs tt with
       | Some (rhs', _) => Some (AssignmentExpression op target rhs', tt)
       | None => None
       end) /\
  (is_leaf kp = true -> (3 <= fuel)%nat ->
   let target := alias_access kp c1 c2 in
   visit (substitute_enter gMap) (S fuel) pos (UnaryExpression "delete" target) tt
     = Some (UnaryExpression "delete" target, tt) /\
   visit (substitute_enter gMap) (S fuel) pos (UpdateExpression uop pre target) tt
     = Some (UpdateExpression uop pre target, tt) /\
   visit (substitute_enter gMap) (S fuel) pos (AssignmentExpression op target rhs) tt
     = match visit (substitute_enter gMap) fuel Elsewhere rhs tt with
       | Some (rhs', _) => Some (AssignmentExpression op target rhs', tt)
       | None => None
       end).
Proof.
  split; [| split].
  - intros Hpos. split.
    + apply resolve_enter_write_target, Hpos.
    + apply substitute_enter_write_target, Hpos.
  - intros Hk Hf Hfuel target.
    apply (protected_operands target 4).
    + intros p m s. apply resolve_enter_not_member.
    + intros p Hp. apply proxy_target_quiet; assumption.
    + apply proxy_access_depth; assumption.
    + exact Hfuel.
  - intros Hk Hfuel target.
    apply (protected_operands target 3).
    + intros p m s. apply substitute_enter_not_member.
    + intros p Hp. apply alias_target_quiet; assumption.
    + apply alias_access_depth; assumption.
    + exact Hfuel.
Qed.

(** *** Pass 4: the alias inliner *)

Lemma observe_collect (l : list (position * node)) (g : alias_map) :
  observe collect_enter l g
  = record_all (omap (fun pn => alias_assignment (snd pn)) l) g.
Proof.
  revert g. induction l as [| [p n] l IH]; intros g; [reflexivity |].
  unfold observe. simpl. unfold collect_enter at 2.
  destruct (alias_assignment n) as [[k rhs] |]; simpl; apply IH.
Qed.

(** The collect traversal returns the tree as it was and the map of its
    assignments, recorded in source order. *)
Lemma collect_traversal (fuel : nat) (tree : node) (g : alias_map) :
  (depth tree <= S fuel)%nat ->
  traverse collect_enter fuel tree g
  = Some (tree, record_all (alias_assignments tree) g).
Proof.
  intros Hd. rewrite traverse_quiet
    by (apply Forall_forall; intros pn _; apply collect_enter_quiet).
  destruct (Nat.leb_spec (depth tree) (S fuel)); [| lia].
  rewrite observe_collect. reflexivity.
Qed.






(** When the substitute visitor replaces, the node is a member expression
    under [a.G] with a static name, outside the write positions, and the
    replacement is what the map holds under that name. *)
Lemma substitute_enter_inv (gMap : alias_map) pos (n r : node) (s s' : unit) :
  substitute_enter gMap pos n s = (Some r, s') ->
  is_write_target pos = false /\
  exists k,
    isMemberExpression n = true /\
    isIdentifier (root_of n) "a" = true /\
    isIdentifier (namespace_of n) "G" = true /\
    truthy_name (field_property n ≫= staticPropName) = Some k /\
    gMap !! k = Some r.
Proof.
  unfold substitute_enter. intros H.
  destruct n as [| | | | | obj property c | | | | | | | | | | | | | |]; try discriminate.
  destruct (isIdentifier (root_of (MemberExpression obj property c)) "a") eqn:Ha;
    [| discriminate].
  destruct (isIdentifier (namespace_of (MemberExpression obj property c)) "G") eqn:HG;
    [| discriminate].
  cbn [andb] in H.
  destruct (truthy_name (staticPropName property)) as [k |] eqn:Hk; [| discriminate].
  destruct (gMap !! k) as [repl |] eqn:Hg; [| discriminate].
  destruct (is_write_target pos) eqn:Hpos; [discriminate |].
  injection H as -> _. split; [reflexivity |]. exists k. auto.
Qed.





(** *** The script *)

Section ScriptFacts.
Variable apply_limit : N.
Variable JSON_parse : Cipher.jsstring -> option json.
Variable atob : @value number -> option Cipher.jsstring.

Local Abbreviation state := (@script_state number).
Local Abbreviation decode_config := (decode_config apply_limit JSON_parse).
Local Abbreviation decode_table := (decode_table apply_limit JSON_parse atob).
Local Abbreviation decode_phase := (decode_phase apply_limit JSON_parse atob).
Local Abbreviation run := (run apply_limit JSON_parse atob).
Local Notation "a >>> b" := (and_then a b) (at level 62, right associativity).

Lemma xor_nil (key : Cipher.jsstring) : Cipher.xor [] key = [].
Proof. destruct key; reflexivity. Qed.

(** Pass 1 reads the tree and writes [extracted]. *)
Lemma extract_pass_result (fuel : nat) (st : state) :
  extract_pass fuel st
  = if (depth (ast st) <=? S fuel)%nat
    then (None, with_extracted st (observe extract_enter (visited (ast st)) (extracted st)))
    else (Some (Unfinished Extracting), st).
Proof.
  unfold extract_pass.
  rewrite traverse_quiet
    by (apply Forall_forall; intros pn _; apply extract_enter_quiet).
  destruct (depth (ast st) <=? S fuel)%nat; [| reflexivity].
  destruct st; reflexivity.
Qed.

Lemma decode_config_decodes : decodes "t" decode_config.
Proof.
  intros st. unfold Ast.decode_config.
  destruct (_ ≫= _) as [t |]; [right; eexists; reflexivity | left; reflexivity].
Qed.

Lemma decode_table_decodes (key : string) (i : nat) : decodes key (decode_table key i).
Proof.
  intros st. unfold Ast.decode_table.
  destruct (_ ≫= _) as [c |]; [| left; reflexivity].
  destruct (decodeArray _ _ _ _ c) as [table |];
    [right; eexists; reflexivity | left; reflexivity].
Qed.

Lemma decode_config_needs_array : needs_array JSON_parse "t" decode_config.
Proof.
  intros Hempty st Hkey. unfold Ast.decode_config.
  rewrite Hkey. simpl. rewrite Hempty. reflexivity.
Qed.

Lemma decode_table_needs_array (key : string) (i : nat) :
  needs_array JSON_parse key (decode_table key i).
Proof.
  intros Hempty st Hkey. unfold Ast.decode_table.
  destruct (_ ≫= _) as [c |]; [| reflexivity].
  unfold decodeArray. rewrite Hkey. simpl.
  destruct (atob c) as [k |]; [| reflexivity].
  rewrite xor_nil, Hempty. reflexivity.
Qed.

Ltac each_key H :=
  simpl in H;
  destruct H as [<- | [<- | [<- | [<- | [<- | [<- | []]]]]]].
Ltac finish_case :=
  repeat split;
  [ simpl; tauto
  | intros k' Hin Hrank; each_key Hin; compute in Hrank; try lia;
    simpl; unfold decoded_tables; simplify_map_eq; eauto
  | intros Hempty k' Hin Hrank; each_key Hin; compute in Hrank; try lia; auto ].
Ltac decode_next :=
  match goal with
  | |- context [Ast.decode_table _ _ _ ?k ?i ?s] =>
      let E := fresh "E" in
      let table := fresh "table" in
      let Hpresent := fresh "Hpresent" in
      assert (Hpresent : JSON_parse [] = None ->
                         (exists t, Ast.decode_table apply_limit JSON_parse atob k i s
                                    = (None, with_decoded s (<[k := t]> (decoded s)))) ->
                         extracted s !! k <> None)
        by (intros Hempty [t Ht] Hnone;
            rewrite (decode_table_needs_array k i Hempty s Hnone) in Ht;
            discriminate);
      destruct (decode_table_decodes k i s) as [E | [table E]];
      [ rewrite E; left; eexists _, _; split; [reflexivity |]; finish_case
      | specialize (fun H => Hpresent H (ex_intro _ table E)); rewrite E ]
  end.

(** The decode statements run in order.  Either one of them throws, with the
    tree, [extracted] and [gMap] as they were and the tables before it
    decoded, or all six tables are decoded. *)
Lemma decode_phase_cases (st : state) :
  (exists k st',
      decode_phase st = (Some (Threw (Decoding k)), st') /\
      In k recognised_keys /\
      ast st' = ast st /\ gMap st' = gMap st /\
      (forall k', In k' recognised_keys ->
                  (decode_rank k' < decode_rank k)%nat ->
                  is_Some (decoded st' !! k')) /\
      (JSON_parse [] = None ->
       forall k', In k' recognised_keys ->
                  (decode_rank k' < decode_rank k)%nat ->
                  extracted st !! k' <> None)) \/
  (exists st',
      decode_phase st = (None, st') /\
      ast st' = ast st /\ gMap st' = gMap st /\
      (forall k', In k' recognised_keys -> is_Some (decoded st' !! k')) /\
      (JSON_parse [] = None ->
       forall k', In k' recognised_keys -> extracted st !! k' <> None)).
Proof.
  unfold Ast.decode_phase, and_then.
  assert (Hpresent : JSON_parse [] = None ->
                     (exists t, Ast.decode_config apply_limit JSON_parse st
                                = (None, with_decoded st (<["t"%string := t]> (decoded st)))) ->
                     extracted st !! "t"%string <> None).
  { intros Hempty [t Ht] Hnone.
    rewrite (decode_config_needs_array Hempty st Hnone) in Ht. discriminate. }
  destruct (decode_config_decodes st) as [E | [table E]].
  { rewrite E. left. eexists _, _. split; [reflexivity |]. finish_case. }
  specialize (fun H => Hpresent H (ex_intro _ table E)). rewrite E.
  do 5 decode_next.
  right. eexists. split; [reflexivity |].
  repeat split.
  - intros k' Hin. each_key Hin; simpl; unfold decoded_tables; simplify_map_eq; eauto.
  - intros Hempty k' Hin. each_key Hin; auto.
Qed.

(** The three rewriting traversals do not touch [decoded], and a run that
    has reached them no longer ends in a decode statement. *)
Lemma rewrite_phase_cases (fuel : nat) (st : state) :
  let r := (resolve_pass fuel >>> collect_pass fuel >>>
            substitute_pass fuel >>> finish) st in
  decoded (snd r) = decoded st /\
  (forall k, fst r <> Some (Threw (Decoding k))).
Proof.
  unfold and_then, resolve_pass, collect_pass, substitute_pass, finish.
  repeat (case_match; simplify_eq); simpl; split; try reflexivity;
    intros k; discriminate.
Qed.

Lemma run_unfold (fuel : nat) (parsed : node) :
  run fuel parsed
  = match extract_pass fuel (initial_state parsed) with
    | (None, st1) =>
        match decode_phase st1 with
        | (None, st2) =>
            (resolve_pass fuel >>> collect_pass fuel >>>
             substitute_pass fuel >>> finish) st2
        | (Some o, st2) => (Some o, st2)
        end
    | (Some o, st1) => (Some o, st1)
    end.
Proof. reflexivity. Qed.

(** C8: when a decode statement throws, the tree is the parsed tree and the
    alias map is still empty; and whenever the tree or the alias map has
    changed, all six tables had been decoded. *)
Theorem decode_failure_leaves_tree (fuel : nat) (parsed : node)
    (o : option outcome) (st : state) :
  run fuel parsed = (o, st) ->
  (forall k, o = Some (Threw (Decoding k)) -> ast st = parsed /\ gMap st = ∅) /\
  (ast st <> parsed \/ gMap st <> ∅ ->
   forall key, In key recognised_keys -> is_Some (decoded st !! key)).
Proof.
  rewrite run_unfold, extract_pass_result. simpl.
  destruct (depth parsed <=? S fuel)%nat.
  2: { intros [= <- <-]. simpl. split; [intros k; discriminate | intros [H | H]; congruence]. }
  match goal with
  | |- context [Ast.decode_phase _ _ _ ?s] =>
      destruct (decode_phase_cases s) as
        [(k & st' & -> & _ & Hast & HgMap & _) | (st' & -> & Hast & HgMap & Hall & _)]
  end.
  - intros [= <- <-]. simpl in *. split; [auto |].
    intros [H | H]; congruence.
  - intros Hrun.
    destruct (rewrite_phase_cases fuel st') as [Hdec Hthrow].
    rewrite Hrun in Hdec, Hthrow. simpl in Hdec, Hthrow. split.
    + intros k ->. destruct (Hthrow k). reflexivity.
    + intros _ key Hin. unfold decoded_tables in *. rewrite Hdec. apply Hall, Hin.
Qed.

(** C9, as the code has it: when one of the six arrays was not extracted,
    the run ends with a decode statement throwing, the one of the missing
    table at the latest.  The tables before that statement have been
    decoded by then; the tree is the parsed tree. *)
Theorem missing_table_aborts (fuel : nat) (parsed : node) (key : string) :
  JSON_parse [] = None ->
  (depth parsed <= S fuel)%nat ->
  In key recognised_keys ->
  extracted_of parsed !! key = None ->
  exists k st,
    run fuel parsed = (Some (Threw (Decoding k)), st) /\
    In k recognised_keys /\
    (decode_rank k <= decode_rank key)%nat /\
    ast st = parsed /\ gMap st = ∅ /\
    (forall k', In k' recognised_keys ->
                (decode_rank k' < decode_rank k)%nat ->
                is_Some (decoded st !! k')).
Proof.
  intros Hempty Hfuel Hin Hmissing.
  rewrite run_unfold, extract_pass_result. simpl.
  destruct (Nat.leb_spec (depth parsed) (S fuel)); [| lia].
  match goal with
  | |- context [Ast.decode_phase _ _ _ ?s] =>
      destruct (decode_phase_cases s) as
        [(k & st' & -> & Hk & Hast & HgMap & Hbefore & Hpresent)
        | (st' & -> & _ & _ & _ & Hpresent)]
  end.
  - exists k, st'. simpl in *. repeat split; auto.
    destruct (Nat.le_gt_cases (decode_rank k) (decode_rank key)) as [Hle | Hgt];
      [exact Hle |].
    destruct (Hpresent Hempty key Hin Hgt). exact Hmissing.
  - destruct (Hpresent Hempty key Hin). exact Hmissing.
Qed.

End ScriptFacts.
End Facts.

(** *** The properties on sample programs *)

Import Samples.

(** [console.log(a.H.z.foo)] becomes [console.log(42)]. *)
Example read_substitution_sample :
  traverse (resolve_enter decoded_foo) 10
    (Program [stmt (call console_log [a_H_z_foo])]) tt
  = Some (Program [stmt (call console_log [NumericLiteral 42])], tt).
Proof. vm_compute. reflexivity. Qed.

(** [a.H.z.bar] has no entry in [{foo: 42}] and stays. *)
Example unresolvable_miss_sample :
  traverse (resolve_enter decoded_foo) 10
    (Program [stmt (dot (dot a_H "z") "bar")]) tt
  = Some (Program [stmt (dot (dot a_H "z") "bar")], tt).
Proof. vm_compute. reflexivity. Qed.

(** [a.H.z.foo = 5], [delete a.H.z.foo] and [a.H.z.foo++] stay. *)
Example write_protection_sample :
  let program :=
    Program [stmt (assign a_H_z_foo (NumericLiteral 5));
             stmt (UnaryExpression "delete" a_H_z_foo);
             stmt (UpdateExpression "++" false a_H_z_foo)] in
  traverse (resolve_enter decoded_foo) 10 program tt = Some (program, tt).
Proof. vm_compute. reflexivity. Qed.

(** [a.G.x = compute(); later(a.G.x)] becomes
    [a.G.x = compute(); later(compute())]. *)
Example alias_inlining_sample :
  alias_pass 10
    (Program [stmt (assign (dot a_G "x") (call (Identifier "compute") []));
              stmt (call (Identifier "later") [dot a_G "x"])])
  = Some
      (Program [stmt (assign (dot a_G "x") (call (Identifier "compute") []));
                stmt (call (Identifier "later") [call (Identifier "compute") []])]).
Proof. vm_compute. reflexivity. Qed.

(** The whole script on a program that defines the six arrays and reads
    [a.H.z.foo]: it reaches the printer with the read replaced. *)
Example run_sample :
  fst (run sample_apply_limit sample_JSON_parse sample_atob 20 program_complete) = Some Finished /\
  exists defs,
    ast (snd (run sample_apply_limit sample_JSON_parse sample_atob 20 program_complete))
    = Program (defs ++ [stmt (call console_log [NumericLiteral 42])]).
Proof.
  split; [vm_compute; reflexivity |].
  exists (removelast (match program_complete with Program b => b | _ => [] end)).
  vm_compute. reflexivity.
Qed.

(** The read of [a.H.z.foo] with [{foo: 42}], alone and in
    [console.log(a.H.z.foo)]. *)
Lemma resolve_read_substitution_witness :
  valueToAst (VJson (JNumber 42)) = Some (NumericLiteral (42 : Z)) /\
  resolve_enter decoded_foo Elsewhere a_H_z_foo tt = (Some (NumericLiteral 42), tt) /\
  visit (resolve_enter decoded_foo) 3 Elsewhere a_H_z_foo tt
    = Some (NumericLiteral 42, tt) /\
  visit (resolve_enter decoded_foo) 4 Elsewhere (call console_log [a_H_z_foo]) tt
    = Some (call console_log [NumericLiteral 42], tt).
Proof.
  assert (Hin : In "z"%string (@table_keys)) by (simpl; tauto).
  assert (Hd : decoded_foo !! "z"%string = Some table_foo) by (vm_compute; reflexivity).
  assert (Hpos : Elsewhere <> TargetField) by discriminate.
  assert (Hne : "foo"%string <> ""%string) by discriminate.
  pose proof (resolve_read_substitution decoded_foo Elsewhere
                (Identifier "z") (Identifier "foo") console_log console_log
                false false false "z" "foo" table_foo (JNumber 42) 2
                eq_refl Hpos eq_refl Hin eq_refl Hne Hd eq_refl) as H.
  cbv zeta in H. destruct H as (H1 & H2 & H3).
  destruct H3 as [H3 H4]; [simpl; lia |].
  split; [exact H1 |]. split; [exact H2 |]. split; [exact H3 |].
  apply H4. vm_compute. reflexivity.
Defined.

(** Against C3 as stated: [{"": 42}] has an entry for the field of
    [a.H.z[""]], a string literal, and the read stays: the test of line
    149 takes the empty name for no name. *)
Lemma empty_field_not_replaced :
  let access := sub (dot a_H "z") (StringLiteral "") in
  decoded_empty_key !! "z"%string = Some table_empty_key /\
  staticPropName (StringLiteral "" : @node Z) = Some ""%string /\
  own_property table_empty_key "" = Some (JNumber 42) /\
  resolve_enter decoded_empty_key Elsewhere access tt = (None, tt) /\
  traverse (resolve_enter decoded_empty_key) 10
    (Program [stmt (call console_log [access])]) tt
  = Some (Program [stmt (call console_log [access])], tt).
Proof. repeat split; vm_compute; reflexivity. Qed.

(** C5 fails on the code: [{foo: 42}] has no entry [__proto__], yet the
    lookup [table["__proto__"]] finds the object's prototype, an object
    without keys of its own, and [a.H.z.__proto__] is replaced by [{}]. *)
Theorem proto_lookup_replaced :
  own_property table_foo "__proto__" = None /\
  get_property table_foo "__proto__" = VPrototype ObjectPrototype /\
  traverse (resolve_enter decoded_foo) 10
    (Program [stmt (dot (dot a_H "z") "__proto__")]) tt
  = Some (Program [stmt (ObjectExpression [])], tt).
Proof. repeat split; vm_compute; reflexivity. Qed.

(** Against C2 as stated: in [a.H.z.foo.bar = 5] the access [a.H.z.foo]
    lies inside the assignment's target, and the resolver replaces it. *)
Lemma target_inside_rewritten :
  traverse (resolve_enter decoded_foo) 10
    (Program [stmt (assign (dot a_H_z_foo "bar") (NumericLiteral 5))]) tt
  = Some (Program [stmt (assign (dot (NumericLiteral 42) "bar") (NumericLiteral 5))], tt)
  /\ dot (NumericLiteral 42) "bar" <> dot a_H_z_foo "bar".
Proof. split; [vm_compute; reflexivity | discriminate]. Qed.

(** [a.H.z.foo] and [a.G.z] as targets. *)
Lemma write_target_protection_witness :
  (resolve_enter decoded_foo UpdateArgument a_H_z_foo tt = (None, tt) /\
   substitute_enter ∅ UpdateArgument a_H_z_foo tt = (None, tt)) /\
  (visit (resolve_enter decoded_foo) 5 Elsewhere (UnaryExpression "delete" a_H_z_foo) tt
     = Some (UnaryExpression "delete" a_H_z_foo, tt) /\
   visit (resolve_enter decoded_foo) 5 Elsewhere (UpdateExpression "++" false a_H_z_foo) tt
     = Some (UpdateExpression "++" false a_H_z_foo, tt) /\
   visit (resolve_enter decoded_foo) 5 Elsewhere
     (assign a_H_z_foo (NumericLiteral 5)) tt
     = match visit (resolve_enter decoded_foo) 4 Elsewhere (NumericLiteral 5) tt with
       | Some (rhs', _) => Some (assign a_H_z_foo rhs', tt)
       | None => None
       end) /\
  (visit (substitute_enter ∅) 5 Elsewhere (UnaryExpression "delete" (dot a_G "z")) tt
     = Some (UnaryExpression "delete" (dot a_G "z"), tt) /\
   visit (substitute_enter ∅) 5 Elsewhere (UpdateExpression "++" false (dot a_G "z")) tt
     = Some (UpdateExpression "++" false (dot a_G "z"), tt) /\
   visit (substitute_enter ∅) 5 Elsewhere
     (assign (dot a_G "z") (NumericLiteral 5)) tt
     = match visit (substitute_enter ∅) 4 Elsewhere (NumericLiteral 5) tt with
       | Some (rhs', _) => Some (assign (dot a_G "z") rhs', tt)
       | None => None
       end).
Proof.
  destruct (write_target_protection decoded_foo ∅ UpdateArgument a_H_z_foo
              (Identifier "z") (Identifier "foo") (NumericLiteral 5)
              false false false false "=" "++" 4) as (H1 & H2 & H3).
  split; [apply H1; reflexivity |].
  split; [apply H2; [reflexivity | reflexivity | lia] |].
  apply H3; [reflexivity | lia].
Defined.


(** [a.G.x = a.G.x + 1]: the recorded expression reads its own key.  The
    read in it is replaced by the expression, in which the read is
    replaced in turn, and so on: no nesting is enough, and the script ends
    in a [RangeError]. *)
Example self_reference_never_settles (fuel : nat) :
  alias_pass fuel
    (Program [stmt (assign (dot a_G "x")
                      (OtherNode "BinaryExpression +"
                         [dot a_G "x"; NumericLiteral 1]))])
  = None.
Proof.
  set (sum := OtherNode "BinaryExpression +" [dot a_G "x"; NumericLiteral (1 : Z)]).
  set (gMap := {["x"%string := sum]} : gmap string (@node Z)).
  assert (Hread : substitute_enter gMap Elsewhere (dot a_G "x") tt = (Some sum, tt))
    by (vm_compute; reflexivity).
  assert (Hsum : forall f, visit (substitute_enter gMap) f Elsewhere sum tt = None
                           /\ visit (substitute_enter gMap) (S f) Elsewhere sum tt = None).
  { induction f as [| f [IH1 IH2]].
    - split; reflexivity.
    - split; [exact IH2 |].
      rewrite visit_step. cbn [substitute_enter sum traverse_keys visit_list].
      rewrite visit_step, Hread. cbn [node_eqb sum admits]. rewrite IH1. reflexivity. }
  unfold alias_pass.
  destruct (traverse collect_enter fuel _ ∅) as [[tree1 recorded] |] eqn:Hcollect;
    [| reflexivity].
  apply traverse_unchanged in Hcollect as [-> ->]; [| apply collect_enter_quiet].
  replace (observe collect_enter _ ∅) with gMap by (vm_compute; reflexivity).
  destruct fuel as [| [| f]]; try reflexivity.
  unfold traverse. cbn [traverse_keys visit_list].
  rewrite visit_step. cbn [substitute_enter stmt traverse_keys].
  rewrite visit_step. cbn [substitute_enter assign traverse_keys].
  destruct (visit (substitute_enter gMap) f AssignmentLeft (dot a_G "x") tt)
    as [[lhs []] |]; [| reflexivity].
  cbn [mbind option_bind]. fold sum.
  destruct (Hsum f) as [-> _]. reflexivity.
Qed.


(** [a.H.z[foo]] and [a.G[foo]] with entries named [foo]. *)
Lemma computed_access_is_static_witness :
  let gMap : gmap string (@node Z) := {["foo"%string := NumericLiteral 7]} in
  resolve_enter decoded_foo Elsewhere (sub (dot a_H "z") (Identifier "foo")) tt
    = resolve_enter decoded_foo Elsewhere (dot (dot a_H "z") "foo") tt /\
  substitute_enter gMap Elsewhere (sub a_G (Identifier "foo")) tt
    = substitute_enter gMap Elsewhere (dot a_G "foo") tt /\
  resolve_enter decoded_foo Elsewhere (sub (dot a_H "z") (Identifier "foo")) tt
    = (Some (NumericLiteral 42), tt) /\
  substitute_enter gMap Elsewhere (sub a_G (Identifier "foo")) tt
    = (Some (NumericLiteral 7), tt).
Proof.
  intros gMap.
  destruct (computed_access_is_static decoded_foo gMap Elsewhere (dot a_H "z")
              (NumericLiteral 0) "foo" "=") as (_ & H2 & _ & _ & H5 & _).
  destruct (computed_access_is_static decoded_foo gMap Elsewhere a_G
              (NumericLiteral 0) "foo" "=") as (_ & _ & H3 & _ & _ & H6).
  split; [exact H2 |]. split; [exact H3 |]. split.
  - apply (H5 "z"%string table_foo (JNumber 42));
      [reflexivity | discriminate | simpl; tauto | vm_compute; reflexivity | reflexivity].
  - apply H6; [reflexivity | discriminate | vm_compute; reflexivity].
Defined.

(** A run that throws while decoding [uB]. *)
Lemma decode_failure_leaves_tree_witness :
  ast (snd (run sample_apply_limit sample_JSON_parse sample_atob 20 program_without_uB))
    = program_without_uB /\
  gMap (snd (run sample_apply_limit sample_JSON_parse sample_atob 20 program_without_uB)) = ∅.
Proof.
  refine (proj1 (decode_failure_leaves_tree sample_apply_limit sample_JSON_parse sample_atob 20
                   program_without_uB _ _ (surjective_pairing _)) "uB"%string _).
  vm_compute. reflexivity.
Defined.

(** Against C9 as stated: the program lacks the array of [uB] alone.  The
    run aborts at the statement that decodes [uB], the last of the six; by
    then the other five tables have been decoded. *)
Lemma abort_after_decoding :
  let r := run sample_apply_limit sample_JSON_parse sample_atob 20 program_without_uB in
  extracted_of program_without_uB !! "uB"%string = None /\
  fst r = Some (Threw (Decoding "uB")) /\
  decoded (snd r) !! "t"%string = Some config_value /\
  decoded (snd r) !! "z"%string = Some table_foo /\
  decoded (snd r) !! "u"%string = Some (JObject []) /\
  decoded (snd r) !! "l"%string = Some (JObject []) /\
  decoded (snd r) !! "I"%string = Some (JObject []).
Proof. repeat split; vm_compute; reflexivity. Qed.

(** The same run, seen from the missing array. *)
Lemma missing_table_aborts_witness :
  exists k st,
    run sample_apply_limit sample_JSON_parse sample_atob 20 program_without_uB
      = (Some (Threw (Decoding k)), st) /\
    In k recognised_keys /\
    (decode_rank k <= decode_rank "uB")%nat /\
    ast st = program_without_uB /\ gMap st = ∅ /\
    (forall k', In k' recognised_keys ->
                (decode_rank k' < decode_rank k)%nat ->
                is_Some (decoded st !! k')).
Proof.
  apply (missing_table_aborts sample_apply_limit sample_JSON_parse sample_atob 20 program_without_uB "uB").
  - vm_compute. reflexivity.
  - vm_compute. lia.
  - simpl. tauto.
  - vm_compute. reflexivity.
Defined.

End TreeFacts.

(** ** More about the helpers and the passes *)

Module TreeMore.
Import Ast TreeFacts.

Section More.
Context {number : Type} `{!EqDecision number} `{!JSNumber number}.
Local Abbreviation node := (@Ast.node number).
Local Abbreviation json := (@Ast.json number).

(** *** Maps filled by a traversal *)

Section Filled.
Context {V : Type}.

Lemma fill_other (l : list (string * V)) (m : gmap string V) (k : string) :
  ~ In k (map fst l) -> fill l m !! k = m !! k.
Proof.
  unfold fill. revert m. induction l as [| [k' v'] l IH]; intros m Hk; [reflexivity |].
  simpl in *. rewrite IH by tauto.
  apply lookup_insert_ne. intros ->. tauto.
Qed.

Lemma fill_last (l1 l2 : list (string * V)) (m : gmap string V) (k : string) (v : V) :
  ~ In k (map fst l2) -> fill (l1 ++ (k, v) :: l2) m !! k = Some v.
Proof.
  intros Hk. unfold fill. rewrite fold_left_app. simpl.
  fold (fill l2 (<[k := v]> (fold_left (fun m kv => <[fst kv := snd kv]> m) l1 m))).
  rewrite fill_other by exact Hk. apply lookup_insert_eq.
Qed.

(** What a filled map holds was in the map before or is in the list. *)
Lemma fill_origin (l : list (string * V)) (m : gmap string V) (k : string) (v : V) :
  fill l m !! k = Some v -> m !! k = Some v \/ In (k, v) l.
Proof.
  unfold fill. revert m. induction l as [| [k' v'] l IH]; intros m H; [left; exact H |].
  simpl in H. apply IH in H as [H | H]; [| right; right; exact H].
  destruct (decide (k' = k)) as [-> | Hne].
  - rewrite lookup_insert_eq in H. injection H as ->. right. left. reflexivity.
  - rewrite lookup_insert_ne in H by exact Hne. left. exact H.
Qed.

End Filled.

(** *** [extractReturnedNumericArrayFromFunction] *)

Lemma find_first_return (pre post : list node) (arg : option node) :
  Forall (fun s => isReturnStatement s = false) pre ->
  List.find isReturnStatement (pre ++ ReturnStatement arg :: post)
  = Some (ReturnStatement arg).
Proof.
  induction 1 as [| s pre Hs _ IH]; simpl; [reflexivity |].
  rewrite Hs. exact IH.
Qed.

(** X8: the numbers of the first [return] at the top of the function body
    come back in order, whatever precedes or follows that statement. *)
Theorem extract_first_return (id : option node) (params pre post : list node)
    (ns : list number) :
  Forall (fun s => isReturnStatement s = false) pre ->
  extractReturnedNumericArrayFromFunction
    (FunctionExpression id params
       (pre ++ ReturnStatement
                 (Some (ArrayExpression (map (fun n => Some (NumericLiteral n)) ns)))
            :: post))
  = Some (map Some ns).
Proof.
  intros Hpre. unfold extractReturnedNumericArrayFromFunction.
  rewrite find_first_return by exact Hpre.
  f_equal. rewrite map_map. reflexivity.
Qed.

(** X9: the first [return] decides.  When it returns nothing, or something
    that is not an array literal, no array is extracted, even if a later
    [return] has one. *)
Theorem extract_first_return_decides (id : option node)
    (params pre post : list node) (arg : option node) :
  Forall (fun s => isReturnStatement s = false) pre ->
  (forall elements, arg <> Some (ArrayExpression elements)) ->
  extractReturnedNumericArrayFromFunction
    (FunctionExpression id params (pre ++ ReturnStatement arg :: post))
  = None.
Proof.
  intros Hpre Harg. unfold extractReturnedNumericArrayFromFunction.
  rewrite find_first_return by exact Hpre.
  destruct arg as [[] |]; try reflexivity.
  destruct (Harg elements). reflexivity.
Qed.

(** *** Pass 1 *)

Lemma mem_string_recognised (name : string) :
  mem_string name recognised_keys = true -> In name recognised_keys.
Proof.
  unfold mem_string. intros H. apply existsb_exists in H as [k [Hin Heq]].
  apply String.eqb_eq in Heq. subst. exact Hin.
Qed.

(** The loop over the six keys stores at most once. *)
Lemma extract_enter_stores pos (n : node) (ex : raw_tables) :
  extract_enter pos n ex
  = (None, match table_assignment n with
           | Some (key, arr) => <[key := arr]> ex
           | None => ex
           end).
Proof.
  unfold extract_enter, table_assignment.
  destruct n as [| | | | | | | op lhs rhs | | | | | | | | | | | |]; try reflexivity.
  destruct lhs as [| | | | | o p c | | | | | | | | | | | | | |]; try reflexivity.
  cbn [isMemberExpression negb field_property].
  destruct (isIdentifier (root_of (MemberExpression o p c)) "a");
    [| destruct p; reflexivity].
  destruct (isIdentifier (namespace_of (MemberExpression o p c)) "i");
    [| destruct p; reflexivity].
  destruct p as [name | | | | | | | | | | | | | | | | | | |];
    try (cbn [isIdentifier andb fold_left recognised_keys];
         destruct (extractReturnedNumericArrayFromFunction rhs); reflexivity).
  cbn [isIdentifier andb fold_left recognised_keys mem_string existsb].
  destruct (String.eqb_spec name "t") as [-> | Ht];
    [destruct (extractReturnedNumericArrayFromFunction rhs); reflexivity |].
  destruct (String.eqb_spec name "z") as [-> | Hz];
    [destruct (extractReturnedNumericArrayFromFunction rhs); reflexivity |].
  destruct (String.eqb_spec name "u") as [-> | Hu];
    [destruct (extractReturnedNumericArrayFromFunction rhs); reflexivity |].
  destruct (String.eqb_spec name "l") as [-> | Hl];
    [destruct (extractReturnedNumericArrayFromFunction rhs); reflexivity |].
  destruct (String.eqb_spec name "I") as [-> | HI];
    [destruct (extractReturnedNumericArrayFromFunction rhs); reflexivity |].
  destruct (String.eqb_spec name "uB") as [-> | HuB];
    destruct (extractReturnedNumericArrayFromFunction rhs); reflexivity.
Qed.

Lemma observe_extract (l : list (position * node)) (ex : raw_tables) :
  observe extract_enter l ex
  = store_all (omap (fun pn => table_assignment (snd pn)) l) ex.
Proof.
  revert ex. induction l as [| [p n] l IH]; intros ex; [reflexivity |].
  unfold observe. simpl. rewrite extract_enter_stores. simpl.
  destruct (table_assignment n) as [[k arr] |]; simpl; apply IH.
Qed.

Lemma table_assignment_key (n : node) (key : string) (arr : list (option number)) :
  table_assignment n = Some (key, arr) -> In key recognised_keys.
Proof.
  unfold table_assignment. intros H.
  repeat case_match; try discriminate. simplify_eq.
  apply mem_string_recognised.
  match goal with
  | H : _ && _ = true |- _ => apply andb_true_iff in H as [_ H]; exact H
  end.
Qed.

(** X10: pass 1 returns the tree as it was, with the arrays of the
    assignments [a.i.<key> = function () { ... return [...] }] of the tree
    in source order.  So it holds nothing but arrays of such assignments,
    under recognised keys only, and for each key the array of the last
    one: an assignment whose function returns no array literal leaves an
    earlier array in place. *)
Theorem extraction_characterised (tree : node) (fuel : nat) (key : string)
    (arr : list (option number)) :
  ((depth tree <= S fuel)%nat ->
   traverse extract_enter fuel tree ∅
   = Some (tree, store_all (table_assignments tree) ∅)) /\
  extracted_of tree = store_all (table_assignments tree) ∅ /\
  (extracted_of tree !! key = Some arr ->
   In key recognised_keys /\ In (key, arr) (table_assignments tree)) /\
  (forall l1 l2,
      table_assignments tree = l1 ++ (key, arr) :: l2 ->
      ~ In key (map fst l2) ->
      extracted_of tree !! key = Some arr).
Proof.
  assert (Hspec : extracted_of tree = store_all (table_assignments tree) ∅)
    by apply observe_extract.
  split; [| split; [exact Hspec | split]].
  - intros Hd. rewrite traverse_quiet
      by (apply Forall_forall; intros pn _; apply extract_enter_quiet).
    destruct (Nat.leb_spec (depth tree) (S fuel)); [| lia].
    rewrite observe_extract. reflexivity.
  - rewrite Hspec. intros H.
    apply (fill_origin (table_assignments tree) ∅ key arr) in H as [H | H].
    + rewrite lookup_empty in H. discriminate.
    + split; [| exact H].
      unfold table_assignments in H. apply list_elem_of_In in H.
      apply list_elem_of_omap in H as [[p n] [_ Hn]].
      eapply table_assignment_key, Hn.
  - intros l1 l2 Hl Hk. rewrite Hspec, Hl.
    apply (fill_last l1 l2 ∅ key arr Hk).
Qed.

(** *** [decodeArray] *)

(** X11: decoding undoes encoding, as far as [apply] goes.  When the
    array holds the units of a text encoded with [xor] under the key that
    [atob] yields, [decodeArray] parses that text: it returns what
    [JSON.parse] returns on it, its exception included.  That is so for
    an array within the number of arguments the engine lets [apply] pass
    on; on a longer one [decodeArray] throws. *)
Theorem decodeArray_round_trip (apply_limit : N)
    (JSON_parse : Cipher.jsstring -> option json)
    (atob : @value number -> option Cipher.jsstring)
    (ns : list number) (c : @value number) (key text : Cipher.jsstring) :
  atob c = Some key ->
  Forall Cipher.code_unit text ->
  map number_to_uint16 ns = Cipher.xor text key ->
  decodeArray apply_limit JSON_parse atob (Some (map Some ns)) c
  = if (N.of_nat (length ns) <=? apply_limit)%N then JSON_parse text else None.
Proof.
  intros Hkey Htext Hns.
  assert (Hunits : map (fun x : option number =>
                          match x with Some n => number_to_uint16 n | None => 0 end)
                     (map Some ns) = Cipher.xor text key)
    by (rewrite <- Hns, map_map; reflexivity).
  unfold decodeArray, fromCharCode_apply. rewrite length_map.
  destruct (N.of_nat (length ns) <=? apply_limit)%N; [| reflexivity].
  rewrite Hunits, Hkey.
  rewrite (CipherFacts.xor_involutive_code_units text key Htext). reflexivity.
Qed.

(** *** [valueToAst] *)

Lemma map_injective_all {A B : Type} (f : A -> B) (l1 : list A) :
  list_all A (fun x => forall y, f x = f y -> x = y) l1 ->
  forall l2, map f l1 = map f l2 -> l1 = l2.
Proof.
  induction 1 as [| x Hx l1 _ IH]; intros [| y l2] Heq; simpl in Heq;
    try discriminate; [reflexivity |].
  injection Heq as Hxy Hl. f_equal; [apply Hx, Hxy | apply IH, Hl].
Qed.

(** X12: the literal tells the value: two decoded values that give the
    same literal are the same value. *)
Theorem jsonToAst_injective (v : json) :
  forall w, jsonToAst v = jsonToAst w -> v = w.
Proof.
  induction v as [| s | n | b | elements IH | entries IH];
    intros w Heq; destruct w; simpl in Heq; try discriminate;
    try (injection Heq as ->; reflexivity); try reflexivity.
  - injection Heq as Heq. f_equal.
    apply (map_injective_all (fun x => Some (jsonToAst x)) elements); [| exact Heq].
    clear Heq. induction IH as [| x Hx l _ IHl]; constructor; [| exact IHl].
    intros y [= Hy]. apply Hx, Hy.
  - injection Heq as Heq. f_equal.
    apply (map_injective_all
             (fun kv : string * json =>
                match kv with
                | (k, x) => ObjectProperty (StringLiteral k) (jsonToAst x) false
                end) entries); [| exact Heq].
    clear Heq. induction IH as [| kx Hkx l _ IHl]; constructor; [| exact IHl].
    destruct Hkx as [k _ x Hx]. intros [k' y] [= -> Hy]. f_equal. apply Hx, Hy.
Qed.

(** X13: a literal built from a decoded value holds no member expression,
    and neither rewriting pass changes it: visited by the resolver or by
    the substitute traversal, under any map, it comes back as it is. *)
Theorem literal_is_final (v : json) (decoded : decoded_tables) (gMap : alias_map)
    pos (fuel : nat) :
  Forall (fun pn => isMemberExpression (snd pn) = false)
    (preorder pos (jsonToAst v)) /\
  ((depth (jsonToAst v) <= fuel)%nat ->
   visit (resolve_enter decoded) fuel pos (jsonToAst v) tt = Some (jsonToAst v, tt) /\
   visit (substitute_enter gMap) fuel pos (jsonToAst v) tt = Some (jsonToAst v, tt)).
Proof.
  split; [apply jsonToAst_member_free |].
  intros Hfuel. split; apply literal_stable; try exact Hfuel.
  - intros p n s. apply resolve_enter_not_member.
  - intros p n s. apply substitute_enter_not_member.
Qed.

(** *** Pass 3 *)

Lemma own_entry_member (entries : list (string * json)) (name : string) (v : json) :
  own_entry entries name = Some v -> In (name, v) entries.
Proof.
  induction entries as [| [k x] entries IH]; simpl; [discriminate |].
  destruct (String.eqb_spec k name) as [-> | _].
  - intros [= ->]. left. reflexivity.
  - intros H. right. apply IH, H.
Qed.

(** What a lookup on a table rehydrates to is a literal, no deeper than
    the table's own literal. *)
Lemma lookup_literal (table : json) (name : string) (r : node) :
  is_object_table table = true ->
  valueToAst (get_property table name) = Some r ->
  exists v, r = jsonToAst v /\ (depth r <= depth (jsonToAst table))%nat.
Proof.
  intros Ht Hr. unfold get_property in Hr.
  destruct (own_property table name) as [v |] eqn:Hown.
  - injection Hr as <-. exists v. split; [reflexivity |].
    destruct table as [| | | | elements | entries]; simpl in Ht, Hown; try discriminate.
    + unfold own_element in Hown.
      destruct (array_index name) as [i |].
      * apply list_elem_of_lookup_2, list_elem_of_In in Hown.
        simpl. rewrite map_map.
        pose proof (list_max_member (fun x => depth_option depth (Some (jsonToAst x)))
                      elements v Hown) as Hle.
        unfold depth_option in *. lia.
      * destruct (String.eqb name "length"); [| discriminate].
        injection Hown as <-. simpl. lia.
    + apply own_entry_member in Hown. simpl. rewrite map_map.
      pose proof (list_max_member
                    (fun kv : string * json =>
                       depth (match kv with
                              | (k, x) => ObjectProperty (StringLiteral k) (jsonToAst x) false
                              end)) entries (name, v) Hown) as Hle.
      cbn [depth] in Hle |- *. lia.
  - pose proof (depth_pos (jsonToAst table)) as Hd.
    destruct table; simpl in Ht; try discriminate;
      unfold inherited in Hr;
      repeat case_match; simpl in Hr; try discriminate; injection Hr as <-.
    + exists (JArray []). split; [reflexivity | simpl in *; lia].
    + exists (JObject []). split; [reflexivity | simpl in *; lia].
Qed.

Lemma isIdentifier_named (x : node) (name : string) :
  isIdentifier (Some x) name = true -> x = Identifier name.
Proof.
  destruct x; simpl; try discriminate. intros H.
  apply String.eqb_eq in H. subst. reflexivity.
Qed.

Lemma mem_string_table_keys (name : string) :
  mem_string name table_keys = true -> In name table_keys.
Proof.
  unfold mem_string. intros H. apply existsb_exists in H as [k [Hin Heq]].
  apply String.eqb_eq in Heq. subst. exact Hin.
Qed.

Lemma resolve_enter_inv (decoded : decoded_tables) pos (n r : node) (s s' : unit) :
  resolve_enter decoded pos n s = (Some r, s') ->
  is_write_target pos = false /\
  exists kp fp c1 c2 c3 keyName propName table,
    n = proxy_access kp fp c1 c2 c3 /\
    truthy_name (staticPropName kp) = Some keyName /\
    In keyName table_keys /\
    truthy_name (staticPropName fp) = Some propName /\
    decoded !! keyName = Some table /\
    is_object_table table = true /\
    valueToAst (get_property table propName) = Some r /\
    exists v, r = jsonToAst v /\ (depth r <= depth (jsonToAst table))%nat.
Proof.
  unfold resolve_enter. intros H.
  destruct n as [| | | | | inner fp c3 | | | | | | | | | | | | | |]; try discriminate.
  destruct (is_write_target pos) eqn:Hpos; [discriminate |].
  split; [reflexivity |].
  destruct inner as [| | | | | aH kp c2 | | | | | | | | | | | | | |]; try discriminate.
  destruct aH as [| | | | | x y c1 | | | | | | | | | | | | | |]; try discriminate.
  destruct (isIdentifier (Some x) "a") eqn:Hx; [| discriminate].
  destruct (isIdentifier (Some y) "H") eqn:Hy; [| discriminate].
  apply isIdentifier_named in Hx, Hy. subst x y. cbn [negb] in H.
  destruct (truthy_name (staticPropName kp)) as [keyName |] eqn:Hk; [| discriminate].
  destruct (mem_string keyName table_keys) eqn:Hmem; [| discriminate].
  cbn [negb] in H.
  destruct (truthy_name (staticPropName fp)) as [propName |] eqn:Hp; [| discriminate].
  destruct (decoded !! keyName) as [table |] eqn:Hd; [| discriminate].
  destruct (is_object_table table) eqn:Ht; [| discriminate].
  injection H as Hr _.
  exists kp, fp, c1, c2, c3, keyName, propName, table.
  repeat split; auto using mem_string_table_keys.
  eapply lookup_literal; eauto.
Qed.

(** X14: the resolver hands a replacement over at accesses
    [a.H.<key>.<field>] only, with [<key>] one of the five table names and
    both names static and not empty, and never at the left side of an
    assignment, the argument of [++] or [--] or the operand of [delete].
    These three are the only positions it tests: the left side of a
    for-in or a value in a destructuring pattern is not among them.  What
    it hands over is the literal of what the lookup on the table yields,
    no deeper than the table's own literal. *)
Theorem resolve_enter_sound (decoded : decoded_tables) pos (n r : node) (s s' : unit) :
  resolve_enter decoded pos n s = (Some r, s') ->
  is_write_target pos = false /\
  exists kp fp c1 c2 c3 keyName propName table,
    n = proxy_access kp fp c1 c2 c3 /\
    truthy_name (staticPropName kp) = Some keyName /\
    In keyName table_keys /\
    truthy_name (staticPropName fp) = Some propName /\
    decoded !! keyName = Some table /\
    is_object_table table = true /\
    valueToAst (get_property table propName) = Some r /\
    exists v, r = jsonToAst v /\ (depth r <= depth (jsonToAst table))%nat.
Proof. apply resolve_enter_inv. Qed.

(** X15: without a table that is an object or an array, the resolver
    changes nothing: the tree comes back as it was. *)
Theorem resolve_without_tables (decoded : decoded_tables) (tree : node) (fuel : nat) :
  (forall key table, decoded !! key = Some table -> is_object_table table = false) ->
  (depth tree <= S fuel)%nat ->
  traverse (resolve_enter decoded) fuel tree tt = Some (tree, tt).
Proof.
  intros Hnone Hd. rewrite traverse_quiet.
  - destruct (Nat.leb_spec (depth tree) (S fuel)); [| lia].
    destruct (observe _ _ tt). reflexivity.
  - apply Forall_forall. intros [p n] _ s. simpl.
    destruct (resolve_enter decoded p n s) as [[r |] s'] eqn:He; [| reflexivity].
    apply resolve_enter_inv in He as (_ & kp & fp & c1 & c2 & c3 & k & f & table & He).
    destruct He as (_ & _ & _ & _ & Hd' & Ht & _).
    rewrite (Hnone k table Hd') in Ht. discriminate.
Qed.

(** *** When pass 3 comes back with a tree *)

Lemma literal_bound_covers (decoded : decoded_tables) (key : string) (table : json) :
  decoded !! key = Some table ->
  (depth (jsonToAst table) <= literal_bound decoded)%nat.
Proof.
  intros Hd. unfold literal_bound. unfold decoded_tables in *.
  apply (list_max_member (fun kv : string * json => depth (jsonToAst (snd kv)))
           (map_to_list decoded) (key, table)).
  apply list_elem_of_In. apply elem_of_map_to_list. exact Hd.
Qed.

Lemma resolve_visit_returns (decoded : decoded_tables) (fuel : nat) :
  forall pos (n : node),
    Forall (fun pn => fst pn = TargetField -> quiet (resolve_enter decoded) pn)
      (preorder pos n) ->
    (depth n + literal_bound decoded <= fuel)%nat ->
    exists n', visit (resolve_enter decoded) fuel pos n tt = Some (n', tt).
Proof.
  induction fuel as [| fuel IH]; intros pos n Hfree Hfuel.
  - pose proof (depth_pos n). lia.
  - assert (Hchildren : exists n', traverse_keys (visit (resolve_enter decoded) fuel) n tt
                                   = Some (n', tt)).
    { apply traverse_keys_returns. intros p c Hin. apply IH.
      - eapply Forall_preorder_child; [exact Hfree | exact Hin].
      - pose proof (children_depth n p c Hin). lia. }
    rewrite visit_step.
    destruct (resolve_enter decoded pos n tt) as [[r |] []] eqn:He; [| exact Hchildren].
    destruct (node_eqb r n); [exact Hchildren |].
    assert (Hadmits : admits pos r = true).
    { destruct pos; try reflexivity.
      rewrite preorder_children in Hfree. apply Forall_cons in Hfree as [Hhead _].
      specialize (Hhead eq_refl tt). cbn [fst snd] in Hhead.
      rewrite He in Hhead. discriminate. }
    rewrite Hadmits.
    apply resolve_enter_inv in He as (_ & kp & fp & c1 & c2 & c3 & k & f & table & He).
    destruct He as (_ & _ & _ & _ & Hd & _ & _ & v & -> & Hdepth).
    pose proof (literal_bound_covers decoded k table Hd) as Hbound.
    pose proof (depth_pos n) as Hn.
    exists (jsonToAst v). apply literal_stable; [| lia].
    intros p m s. apply resolve_enter_not_member.
Qed.

(** X16: pass 3 comes back with a tree whenever no access it resolves is
    held in a field that admits an assignment target only (the left of a
    for-in or for-of, a rest argument, the left of a default).  What it
    puts in place is a literal, which it never replaces again, so the
    nesting of the tree and of the tables' literals is all the nesting
    it needs. *)
Theorem resolve_terminates (decoded : decoded_tables) (tree : node) (fuel : nat) :
  Forall (fun pn => fst pn = TargetField -> quiet (resolve_enter decoded) pn)
    (visited tree) ->
  (depth tree + literal_bound decoded <= S fuel)%nat ->
  exists tree', traverse (resolve_enter decoded) fuel tree tt = Some (tree', tt).
Proof.
  intros Hfree Hfuel. unfold traverse. apply traverse_keys_returns.
  intros p c Hin. apply resolve_visit_returns.
  - unfold visited in Hfree.
    apply (Forall_preorder_child _ Elsewhere tree p c); [| exact Hin].
    rewrite preorder_children in Hfree |- *. cbn [tail] in Hfree.
    apply List.Forall_cons; [intros [=] | exact Hfree].
  - pose proof (children_depth tree p c Hin). lia.
Qed.


(** A read of [a.H.<key>.<field>] whose table has the entry, visited with
    fuel for the literal. *)
Lemma resolve_access_visit (decoded : decoded_tables) pos (kp fp : node)
    (c1 c2 c3 : bool) (keyName propName : string) (table v : json) (fuel : nat) :
  is_write_target pos = false ->
  pos <> TargetField ->
  truthy_name (staticPropName kp) = Some keyName ->
  In keyName table_keys ->
  truthy_name (staticPropName fp) = Some propName ->
  decoded !! keyName = Some table ->
  own_property table propName = Some v ->
  (depth (jsonToAst v) <= fuel)%nat ->
  visit (resolve_enter decoded) (S fuel) pos (proxy_access kp fp c1 c2 c3) tt
  = Some (jsonToAst v, tt).
Proof.
  intros Hpos Htarget Hk Hin Hp Hd Hown Hfuel.
  rewrite visit_step.
  rewrite (resolve_enter_access decoded pos kp fp c1 c2 c3 keyName propName table)
    by eauto using own_property_object_table.
  unfold get_property. rewrite Hown. cbn [valueToAst].
  unfold proxy_access at 1.
  rewrite jsonToAst_differs, (admits_outside_target pos _ Htarget).
  apply literal_stable; [| exact Hfuel].
  intros p n s. apply resolve_enter_not_member.
Qed.

(** X17: one run of pass 3 is not a fixed point.  At
    [a.H.<key>[a.H.<key'>.<field'>]] the visitor meets the outer access
    first, finds no static name and leaves it; the index is then replaced
    by its string, and the outer access, now [a.H.<key>["s"]], is not
    visited again.  A second run resolves it. *)
Theorem nested_access_half_resolved (decoded : decoded_tables)
    (kp kp' fp' : node) (c1 c2 c3 c1' c2' c3' : bool)
    (key key' field' s : string) (table table' v : json) (fuel : nat) :
  is_leaf kp = true ->
  truthy_name (staticPropName kp) = Some key -> In key table_keys ->
  truthy_name (staticPropName kp') = Some key' -> In key' table_keys ->
  truthy_name (staticPropName fp') = Some field' ->
  decoded !! key' = Some table' ->
  own_property table' field' = Some (JString s) ->
  s <> ""%string ->
  decoded !! key = Some table ->
  own_property table s = Some v ->
  (depth (jsonToAst v) <= 3 + fuel)%nat ->
  visit (resolve_enter decoded) (4 + fuel) Elsewhere
    (proxy_access kp (proxy_access kp' fp' c1' c2' c3') c1 c2 c3) tt
  = Some (proxy_access kp (StringLiteral s) c1 c2 c3, tt) /\
  visit (resolve_enter decoded) (4 + fuel) Elsewhere
    (proxy_access kp (StringLiteral s) c1 c2 c3) tt
  = Some (jsonToAst v, tt).
Proof.
  intros Hleaf Hk Hin Hk' Hin' Hf' Hd' Hown' Hs Hd Hown Hfuel.
  split.
  - change (4 + fuel)%nat with (S (3 + fuel)). rewrite visit_step.
    assert (Houter : resolve_enter decoded Elsewhere
                       (proxy_access kp (proxy_access kp' fp' c1' c2' c3') c1 c2 c3) tt
                     = (None, tt)).
    { unfold resolve_enter, proxy_access. cbv beta iota.
      cbn [is_write_target isIdentifier String.eqb Ascii.eqb Bool.eqb negb].
      rewrite Hk, (table_key_member key Hin). reflexivity. }
    rewrite Houter. unfold proxy_access at 1. cbn [traverse_keys].
    rewrite visit_quiet_unit.
    + cbn [mbind option_bind].
      change (3 + fuel)%nat with (S (2 + fuel)).
      rewrite (resolve_access_visit decoded Elsewhere kp' fp' c1' c2' c3'
                 key' field' table' (JString s) (2 + fuel))
        by (try assumption; try reflexivity; try discriminate; simpl; lia).
      reflexivity.
    + simpl. rewrite (leaf_preorder kp _ Hleaf). simpl.
      repeat (apply List.Forall_cons || apply List.Forall_nil);
        intros []; cbn [fst snd]; try reflexivity.
      rewrite resolve_enter_not_member; [reflexivity |].
      destruct kp; simpl in Hleaf; try discriminate; reflexivity.
    + simpl. rewrite (leaf_depth kp Hleaf). lia.
  - change (4 + fuel)%nat with (S (3 + fuel)).
    apply (resolve_access_visit decoded Elsewhere kp (StringLiteral s) c1 c2 c3
             key s table v (3 + fuel)); try assumption; try reflexivity;
      try discriminate.
    simpl. destruct (String.eqb_spec s ""); [contradiction | reflexivity].
Qed.

(** *** Pass 4 *)

Lemma truthy_name_not_empty (o : option string) (k : string) :
  truthy_name o = Some k -> k <> ""%string.
Proof.
  unfold truthy_name. destruct o as [name |]; [| discriminate].
  destruct (String.eqb_spec name ""); [discriminate |]. intros [= <-]. assumption.
Qed.

Lemma alias_assignment_inv (n : node) (k : string) (e : node) :
  alias_assignment n = Some (k, e) ->
  exists op lhs,
    n = AssignmentExpression op lhs e /\
    isMemberExpression lhs = true /\
    isIdentifier (root_of lhs) "a" = true /\
    isIdentifier (namespace_of lhs) "G" = true /\
    truthy_name (field_property lhs ≫= staticPropName) = Some k.
Proof.
  unfold alias_assignment. intros H.
  destruct n as [| | | | | | | op lhs rhs | | | | | | | | | | | |]; try discriminate.
  destruct (isMemberExpression lhs) eqn:Hm; [| discriminate]. cbn [negb] in H.
  destruct (isIdentifier (root_of lhs) "a") eqn:Ha; [| discriminate].
  destruct (isIdentifier (namespace_of lhs) "G") eqn:HG; [| discriminate].
  cbn [andb] in H.
  destruct (truthy_name (field_property lhs ≫= staticPropName)) as [k' |] eqn:Hk;
    [| discriminate].
  injection H as -> ->. exists op, lhs. auto.
Qed.

(** X18: the alias map holds nothing but right-hand sides of assignments
    of the tree whose target is a member expression under [a.G] with a
    static name, and never under the empty key. *)
Theorem collected_entries (tree : node) (k : string) (e : node) :
  record_all (alias_assignments tree) ∅ !! k = Some e ->
  k <> ""%string /\
  exists pos op lhs,
    In (pos, AssignmentExpression op lhs e) (visited tree) /\
    isMemberExpression lhs = true /\
    isIdentifier (root_of lhs) "a" = true /\
    isIdentifier (namespace_of lhs) "G" = true /\
    truthy_name (field_property lhs ≫= staticPropName) = Some k.
Proof.
  intros H.
  apply (fill_origin (alias_assignments tree) ∅ k e) in H as [H | H].
  { unfold alias_map in H. rewrite lookup_empty in H. discriminate. }
  unfold alias_assignments in H. apply list_elem_of_In in H.
  apply list_elem_of_omap in H as [[pos n] [Hin Hn]]. simpl in Hn.
  apply alias_assignment_inv in Hn as (op & lhs & -> & Hm & Ha & HG & Hk).
  split; [eapply truthy_name_not_empty; exact Hk |].
  exists pos, op, lhs. apply list_elem_of_In in Hin. auto.
Qed.

(** X19: the substitute visitor hands a replacement over at member
    expressions under [a.G] with a static name that is not empty only, and
    never at the left side of an assignment, the argument of [++] or [--]
    or the operand of [delete].  These three are the only positions it
    tests: the left side of a for-in or a value in a destructuring pattern
    is not among them.  What it hands over is the expression the map
    holds under that name. *)
Theorem substitute_enter_sound (gMap : alias_map) pos (n r : node) (s s' : unit) :
  substitute_enter gMap pos n s = (Some r, s') ->
  is_write_target pos = false /\
  exists k,
    isMemberExpression n = true /\
    isIdentifier (root_of n) "a" = true /\
    isIdentifier (namespace_of n) "G" = true /\
    truthy_name (field_property n ≫= staticPropName) = Some k /\
    gMap !! k = Some r.
Proof. apply substitute_enter_inv. Qed.

(** X20: a tree without an assignment under [a.G] goes through pass 4
    unchanged. *)
Theorem alias_pass_without_assignments (tree : node) (fuel : nat) :
  alias_assignments tree = [] ->
  (depth tree <= S fuel)%nat ->
  alias_pass fuel tree = Some tree.
Proof.
  intros Hnone Hd. unfold alias_pass.
  rewrite collect_traversal by exact Hd. rewrite Hnone. simpl.
  rewrite traverse_quiet.
  - destruct (Nat.leb_spec (depth tree) (S fuel)); [| lia]. reflexivity.
  - apply Forall_forall. intros [p n] _ s. simpl.
    destruct (substitute_enter ∅ p n s) as [[r |] s'] eqn:He; [| reflexivity].
    apply substitute_enter_inv in He as (_ & k & _ & _ & _ & _ & Hg).
    unfold alias_map in Hg. rewrite lookup_empty in Hg. discriminate.
Qed.


(** *** The script *)

Section ScriptMore.
Variable apply_limit : N.
Variable JSON_parse : Cipher.jsstring -> option json.
Variable atob : @value number -> option Cipher.jsstring.
Local Notation "a >>> b" := (and_then a b) (at level 62, right associativity).



End ScriptMore.

End More.

(** ** The properties above on sample programs *)

Import Samples.

Lemma extract_first_return_witness :
  extractReturnedNumericArrayFromFunction
    (FunctionExpression None []
       ([stmt (call console_log [])] ++
        ReturnStatement
          (Some (ArrayExpression (map (fun n => Some (NumericLiteral n)) [1; 2; 3])))
        :: [ReturnStatement None]))
  = Some (map Some [1; 2; 3] : list (option Z)).
Proof.
  apply (extract_first_return None [] [stmt (call console_log [])]
           [ReturnStatement None] [1; 2; 3]).
  repeat constructor.
Defined.

Lemma extract_first_return_decides_witness :
  extractReturnedNumericArrayFromFunction
    (FunctionExpression None []
       ([stmt (call console_log [])] ++
        ReturnStatement (Some (Identifier "table"))
        :: [ReturnStatement (Some (ArrayExpression [Some (NumericLiteral 1)]))]))
  = (None : option (list (option Z))).
Proof.
  apply (extract_first_return_decides None [] [stmt (call console_log [])]
           [ReturnStatement (Some (ArrayExpression [Some (NumericLiteral 1)]))]
           (Some (Identifier "table"))).
  - repeat constructor.
  - intros elements. discriminate.
Defined.

(** The five arrays of the sample program, and the one of [z]. *)
Lemma extraction_characterised_witness :
  traverse extract_enter 20 program_without_uB ∅
  = Some (program_without_uB, store_all (table_assignments program_without_uB) ∅) /\
  extracted_of program_without_uB !! "z"%string
  = Some (map Some (units table_foo_text)).
Proof.
  destruct (extraction_characterised program_without_uB 20 "z"
              (map Some (units table_foo_text))) as (Hrun & _ & _ & Hlast).
  split.
  - apply Hrun. vm_compute. lia.
  - apply (Hlast [("t"%string, map Some (units config_text))]
                 [("u"%string, map Some (units "{}"));
                  ("l"%string, map Some (units "{}"));
                  ("I"%string, map Some (units "{}"))]).
    + vm_compute. reflexivity.
    + simpl. intros [H | [H | [H | []]]]; discriminate.
Defined.

(** The text of the sample table under the key [KEY], whose base64 form
    is [S0VZ]: on the sample engine, and on one whose [apply] passes on
    three arguments. *)
Lemma decodeArray_round_trip_witness :
  let atob_KEY (v : @value Z) : option Cipher.jsstring :=
    match v with
    | VJson (JString "S0VZ") => Some [75; 69; 89]
    | _ => None
    end in
  let encoded := Cipher.xor (units table_foo_text) [75; 69; 89] in
  decodeArray sample_apply_limit sample_JSON_parse atob_KEY
    (Some (map Some encoded)) (VJson (JString "S0VZ"))
  = Some table_foo /\
  decodeArray 3 sample_JSON_parse atob_KEY
    (Some (map Some encoded)) (VJson (JString "S0VZ"))
  = None.
Proof.
  intros atob_KEY encoded.
  assert (Htext : Forall Cipher.code_unit (units table_foo_text)).
  { let l := eval vm_compute in (units table_foo_text) in
    change (Forall Cipher.code_unit l).
    repeat (apply List.Forall_cons; [unfold Cipher.code_unit; lia |]).
    apply List.Forall_nil. }
  assert (Hunits : map number_to_uint16 encoded
                   = Cipher.xor (units table_foo_text) [75; 69; 89])
    by (vm_compute; reflexivity).
  split.
  - rewrite (decodeArray_round_trip sample_apply_limit sample_JSON_parse atob_KEY
               encoded (VJson (JString "S0VZ")) [75; 69; 89] (units table_foo_text)
               eq_refl Htext Hunits).
    vm_compute. reflexivity.
  - rewrite (decodeArray_round_trip 3 sample_JSON_parse atob_KEY
               encoded (VJson (JString "S0VZ")) [75; 69; 89] (units table_foo_text)
               eq_refl Htext Hunits).
    vm_compute. reflexivity.
Defined.

Lemma jsonToAst_injective_witness :
  JArray [JNumber 1; JString "1"; JNull] = (JArray [JNumber 1; JString "1"; JNull] : @json Z).
Proof.
  apply (jsonToAst_injective (JArray [JNumber 1; JString "1"; JNull])
           (JArray [JNumber 1; JString "1"; JNull])).
  reflexivity.
Defined.

Lemma literal_is_final_witness :
  visit (resolve_enter decoded_foo) 3 Elsewhere (jsonToAst table_foo) tt
  = Some (jsonToAst table_foo, tt) /\
  visit (substitute_enter {["foo"%string := NumericLiteral 7]}) 3 Elsewhere
    (jsonToAst table_foo) tt
  = Some (jsonToAst table_foo, tt).
Proof.
  apply (literal_is_final table_foo decoded_foo
           {["foo"%string := NumericLiteral 7]} Elsewhere 3).
  vm_compute. lia.
Defined.

Lemma resolve_enter_sound_witness :
  is_write_target Elsewhere = false /\
  exists kp fp c1 c2 c3 keyName propName table,
    a_H_z_foo = proxy_access kp fp c1 c2 c3 /\
    truthy_name (staticPropName kp) = Some keyName /\
    In keyName table_keys /\
    truthy_name (staticPropName fp) = Some propName /\
    decoded_foo !! keyName = Some table /\
    is_object_table table = true /\
    valueToAst (get_property table propName) = Some (NumericLiteral 42) /\
    exists v, NumericLiteral 42 = jsonToAst v /\
              (depth (NumericLiteral (42 : Z)) <= depth (jsonToAst table))%nat.
Proof.
  apply (resolve_enter_sound decoded_foo Elsewhere a_H_z_foo (NumericLiteral 42) tt tt).
  reflexivity.
Defined.

(** A table that decoded to a string: nothing is looked up in it. *)
Lemma resolve_without_tables_witness :
  let decoded : gmap string (@json Z) := {["z"%string := JString "foo"]} in
  traverse (resolve_enter decoded) 10
    (Program [stmt (call console_log [a_H_z_foo])]) tt
  = Some (Program [stmt (call console_log [a_H_z_foo])], tt).
Proof.
  intros decoded.
  apply (resolve_without_tables decoded
           (Program [stmt (call console_log [a_H_z_foo])]) 10).
  - intros key table H. subst decoded. unfold decoded_tables in H.
    apply lookup_singleton_Some in H as [_ <-]. reflexivity.
  - vm_compute. lia.
Defined.

(** [for (x in a.H.z.foo) {}]: the target is no access, the access is
    read. *)
Lemma resolve_terminates_witness :
  let loop := TargetHolder "ForInStatement" (Identifier "x")
                [a_H_z_foo; OtherNode "BlockStatement" []] in
  exists tree',
    traverse (resolve_enter decoded_foo) 10 (Program [loop]) tt = Some (tree', tt).
Proof.
  intros loop.
  apply (resolve_terminates decoded_foo (Program [loop]) 10).
  - unfold visited. simpl preorder. cbn [tail].
    repeat (apply List.Forall_cons;
            [cbn [fst]; intros Hp s; first [discriminate | reflexivity] |]).
    apply List.Forall_nil.
  - vm_compute. lia.
Defined.



(** [a.H.z[a.H.u.k]] with [u.k = "foo"] and [z.foo = 42]. *)
Lemma nested_access_half_resolved_witness :
  let decoded : @decoded_tables Z :=
    {["z"%string := table_foo; "u"%string := JObject [("k"%string, JString "foo")]]} in
  visit (resolve_enter decoded) 4 Elsewhere
    (sub (dot a_H "z") (dot (dot a_H "u") "k")) tt
  = Some (sub (dot a_H "z") (StringLiteral "foo"), tt) /\
  visit (resolve_enter decoded) 4 Elsewhere
    (sub (dot a_H "z") (StringLiteral "foo")) tt
  = Some (NumericLiteral 42, tt).
Proof.
  intros decoded.
  apply (nested_access_half_resolved decoded
           (Identifier "z") (Identifier "u") (Identifier "k")
           false false true false false false
           "z" "u" "k" "foo" table_foo (JObject [("k"%string, JString "foo")])
           (JNumber 42) 0).
  - reflexivity.
  - reflexivity.
  - simpl. tauto.
  - reflexivity.
  - simpl. tauto.
  - reflexivity.
  - vm_compute. reflexivity.
  - reflexivity.
  - discriminate.
  - vm_compute. reflexivity.
  - reflexivity.
  - simpl. lia.
Defined.

Lemma collected_entries_witness :
  let compute := call (Identifier "compute") [] in
  "x"%string <> ""%string /\
  exists pos op lhs,
    In (pos, AssignmentExpression op lhs compute)
       (visited (Program [stmt (assign (dot a_G "x") compute)])) /\
    isMemberExpression lhs = true /\
    isIdentifier (root_of lhs) "a" = true /\
    isIdentifier (namespace_of lhs) "G" = true /\
    truthy_name (field_property lhs ≫= staticPropName) = Some "x"%string.
Proof.
  intros compute.
  apply (collected_entries (Program [stmt (assign (dot a_G "x") compute)]) "x" compute).
  vm_compute. reflexivity.
Defined.

Lemma substitute_enter_sound_witness :
  let compute := call (Identifier "compute") [] in
  let gMap : gmap string (@node Z) := {["x"%string := compute]} in
  is_write_target Elsewhere = false /\
  exists k,
    isMemberExpression (dot a_G "x") = true /\
    isIdentifier (root_of (dot a_G "x")) "a" = true /\
    isIdentifier (namespace_of (dot a_G "x")) "G" = true /\
    truthy_name (field_property (dot a_G "x") ≫= staticPropName) = Some k /\
    gMap !! k = Some compute.
Proof.
  intros compute gMap.
  apply (substitute_enter_sound gMap Elsewhere (dot a_G "x") compute tt tt).
  reflexivity.
Defined.

Lemma alias_pass_without_assignments_witness :
  alias_pass 10 (Program [stmt (call console_log [a_H_z_foo])])
  = Some (Program [stmt (call console_log [a_H_z_foo])]).
Proof.
  apply (alias_pass_without_assignments
           (Program [stmt (call console_log [a_H_z_foo])]) 10).
  - reflexivity.
  - vm_compute. lia.
Defined.


End TreeMore.
